(** * Cost tracker: pricing resolver, call ledger and agent observability

    A shallow embedding of [packages/shared-llm/src/cost-tracker.py].

    Conventions of the embedding:
    - Python [int] is [Z] (unbounded).
    - Python [float] quantities (rates, costs, durations, timestamps) are
      exact rationals [Q]; sums of them are compared with [==].  Rounding,
      infinities and NaN of binary64 are outside the model.
    - Python [str] is [string]; a character is a code point below 256.
    - Objects of class [CallRecord] live in a store and are handled through
      their address, so a record returned by [record] and the record kept in
      the ledger are one object. *)

From Stdlib Require Import ZArith QArith Lqa String Ascii List Lia Bool Sorted.
From stdpp Require Import base list strings gmap.

Open Scope Z_scope.
Open Scope Q_scope.

(** ** Strings: [str.lower] and the [in] operator *)

Module Str.

(** [str.lower] on one code point below 256: the letters A-Z and the
    capital letters of the Latin-1 block (all of C0-DE but the
    multiplication sign D7) move up by 32. *)
Definition chr_lower (ch : ascii) : ascii :=
  let n := N_of_ascii ch in
  if ((65 <=? n) && (n <=? 90)
      || (192 <=? n) && (n <=? 222) && negb (n =? 215))%N
  then ascii_of_N (n + 32) else ch.

Fixpoint lower (s : string) : string :=
  match s with
  | EmptyString => EmptyString
  | String ch s' => String (chr_lower ch) (lower s')
  end.

(** [s.startswith(p)] *)
Fixpoint startswith (p s : string) : bool :=
  match p, s with
  | EmptyString, _ => true
  | String _ _, EmptyString => false
  | String a p', String b s' => Ascii.eqb a b && startswith p' s'
  end.

(** [p in s]: [p] occurs in [s] at some position. *)
Fixpoint contains (p s : string) : bool :=
  startswith p s ||
  match s with
  | EmptyString => false
  | String _ s' => contains p s'
  end.

(** [p] occurs in [s] up to the case of letters. *)
Definition ci_substring (p s : string) : Prop :=
  exists pre mid suf : string,
    s = (pre ++ mid ++ suf)%string /\ lower mid = lower p.

End Str.

(** ** Pricing resolver *)

(** [_DEFAULT_PRICING], in the insertion order of the dict:
    prefix, (cost per 1K prompt tokens, cost per 1K completion tokens). *)
Definition _DEFAULT_PRICING : list (string * (Q * Q)) :=
  [ ("deepseek"%string,      (0.00015, 0.00045));
    ("meta-llama"%string,    (0.00018, 0.00018));
    ("claude-haiku"%string,  (0.001,   0.005));
    ("claude-sonnet"%string, (0.003,   0.015));
    ("claude-opus"%string,   (0.015,   0.075));
    ("gpt-4o-mini"%string,   (0.00015, 0.0006));
    ("gpt-4o"%string,        (0.0025,  0.01)) ].

(** The price of a call at given rates. *)
Definition cost_at (prompt_rate completion_rate : Q)
    (prompt_tokens completion_tokens : Z) : Q :=
  (inject_Z prompt_tokens / 1000) * prompt_rate
  + (inject_Z completion_tokens / 1000) * completion_rate.

(** The [for] loop of [_estimate_cost] over the items of a pricing table. *)
Fixpoint estimate_over (items : list (string * (Q * Q))) (model : string)
    (prompt_tokens completion_tokens : Z) : Q :=
  match items with
  | [] =>
      (inject_Z prompt_tokens / 1000) * 0.003
      + (inject_Z completion_tokens / 1000) * 0.015
  | (prefix, (prompt_rate, completion_rate)) :: rest =>
      if Str.contains prefix (Str.lower model)
      then (inject_Z prompt_tokens / 1000) * prompt_rate
           + (inject_Z completion_tokens / 1000) * completion_rate
      else estimate_over rest model prompt_tokens completion_tokens
  end.

Definition _estimate_cost (model : string)
    (prompt_tokens completion_tokens : Z) : Q :=
  estimate_over _DEFAULT_PRICING model prompt_tokens completion_tokens.

(** ** Data model *)

Module CallRecord.
(** One LLM API call.  The dataclass is declared without [frozen=True]:
    its fields can be assigned after creation. *)
Record t : Type := Build {
  provider : string;
  model : string;
  caller : string;
  conversation_id : string;
  prompt_tokens : Z;
  completion_tokens : Z;
  total_tokens : Z;
  estimated_cost_usd : Q;
  duration_ms : Q;
  success : bool;
  timestamp : Q
}.
End CallRecord.

Module CostSummary.
Record t : Type := Build {
  total_calls : Z;
  successful_calls : Z;
  failed_calls : Z;
  total_prompt_tokens : Z;
  total_completion_tokens : Z;
  total_tokens : Z;
  total_cost_usd : Q;
  total_duration_ms : Q
}.

(** [CostSummary()]: every field at its default. *)
Definition empty : t := Build 0 0 0 0 0 0 0 0.

(** Field-wise sum of two summaries. *)
Definition add (a b : t) : t :=
  Build (total_calls a + total_calls b)
        (successful_calls a + successful_calls b)
        (failed_calls a + failed_calls b)
        (total_prompt_tokens a + total_prompt_tokens b)
        (total_completion_tokens a + total_completion_tokens b)
        (total_tokens a + total_tokens b)
        (total_cost_usd a + total_cost_usd b)
        (total_duration_ms a + total_duration_ms b).

(** Two summaries agree: integer fields are equal, the rational ones
    denote the same number. *)
Definition equiv (a b : t) : Prop :=
  total_calls a = total_calls b
  /\ successful_calls a = successful_calls b
  /\ failed_calls a = failed_calls b
  /\ total_prompt_tokens a = total_prompt_tokens b
  /\ total_completion_tokens a = total_completion_tokens b
  /\ total_tokens a = total_tokens b
  /\ total_cost_usd a == total_cost_usd b
  /\ total_duration_ms a == total_duration_ms b.
End CostSummary.

Module AgentObservability.
Record t : Type := Build {
  agent_name : string;
  call_count : Z;
  error_count : Z;
  error_rate : Q;
  total_tokens : Z;
  total_cost_usd : Q;
  avg_latency_ms : Q;
  p50_latency_ms : Q;
  p95_latency_ms : Q;
  max_latency_ms : Q
}.

(** [AgentObservability(agent_name=name)]: the other fields default. *)
Definition default (name : string) : t := Build name 0 0 0 0 0 0 0 0 0.
End AgentObservability.

(** The keyword arguments of [CostTracker.record]. *)
Module RecordArgs.
Record t : Type := Build {
  provider : string;
  model : string;
  caller : string;
  conversation_id : string;
  prompt_tokens : Z;
  completion_tokens : Z;
  duration_ms : Q;
  success : bool
}.
End RecordArgs.

(** ** The object store and the tracker *)

(** [heap]: every [CallRecord] object created so far, an object's address
    being its position.  [_records]: the list held by the tracker, a list of
    addresses as a Python list is. *)
Record Store : Type := mkStore {
  heap : list CallRecord.t;
  _records : list nat
}.

(** [CostTracker()] in a program that has created no record yet. *)
Definition init : Store := mkStore [] [].

(** Every address of the ledger denotes an object. *)
Definition wf (st : Store) : Prop :=
  Forall (fun a => (a < length (heap st))%nat) (_records st).

(** The body of [record] up to the construction of the object. *)
Definition new_record (a : RecordArgs.t) (now : Q) : CallRecord.t :=
  let total := (RecordArgs.prompt_tokens a + RecordArgs.completion_tokens a)%Z in
  let cost :=
    if RecordArgs.success a
    then _estimate_cost (RecordArgs.model a) (RecordArgs.prompt_tokens a)
           (RecordArgs.completion_tokens a)
    else 0 in
  CallRecord.Build (RecordArgs.provider a) (RecordArgs.model a)
    (RecordArgs.caller a) (RecordArgs.conversation_id a)
    (RecordArgs.prompt_tokens a) (RecordArgs.completion_tokens a)
    total cost (RecordArgs.duration_ms a) (RecordArgs.success a) now.

(** Creating an object: it gets the next free address. *)
Definition alloc (st : Store) (r : CallRecord.t) : Store * nat :=
  (mkStore (heap st ++ [r]) (_records st), length (heap st)).

(** [self._records.append(record)] *)
Definition append (st : Store) (addr : nat) : Store :=
  mkStore (heap st) (_records st ++ [addr]).

(** [CostTracker.record]: [now] is the reading of [time.time] taken by the
    constructor.  The result is the new store and the returned object. *)
Definition record (st : Store) (a : RecordArgs.t) (now : Q) : Store * nat :=
  let (st1, addr) := alloc st (new_record a now) in
  (append st1 addr, addr).

(** [CostTracker.reset] *)
Definition reset (st : Store) : Store := mkStore (heap st) [].

(** An attribute assignment [obj.field = value] made by any holder of the
    object at [addr]; [upd] is the change of the one field. *)
Definition setattr (st : Store) (addr : nat)
    (upd : CallRecord.t -> CallRecord.t) : Store :=
  mkStore (alter upd addr (heap st)) (_records st).

Definition set_prompt_tokens (v : Z) (r : CallRecord.t) : CallRecord.t :=
  CallRecord.Build (CallRecord.provider r) (CallRecord.model r)
    (CallRecord.caller r) (CallRecord.conversation_id r)
    v (CallRecord.completion_tokens r) (CallRecord.total_tokens r)
    (CallRecord.estimated_cost_usd r) (CallRecord.duration_ms r)
    (CallRecord.success r) (CallRecord.timestamp r).

(** The fields of the ledger's records as a query reads them.  An address
    without an object would be skipped; the tracker's methods never leave
    one in the ledger (see [wf_reachable] and [snapshot_length]). *)
Definition snapshot (st : Store) : list CallRecord.t :=
  omap (fun a => heap st !! a) (_records st).

(** ** Aggregation *)

(** One turn of the loop of [_aggregate]. *)
Definition aggregate_step (s : CostSummary.t) (r : CallRecord.t)
    : CostSummary.t :=
  CostSummary.Build
    (CostSummary.total_calls s + 1)
    (if CallRecord.success r
     then CostSummary.successful_calls s + 1
     else CostSummary.successful_calls s)
    (if CallRecord.success r
     then CostSummary.failed_calls s
     else CostSummary.failed_calls s + 1)
    (CostSummary.total_prompt_tokens s + CallRecord.prompt_tokens r)
    (CostSummary.total_completion_tokens s + CallRecord.completion_tokens r)
    (CostSummary.total_tokens s + CallRecord.total_tokens r)
    (CostSummary.total_cost_usd s + CallRecord.estimated_cost_usd r)
    (CostSummary.total_duration_ms s + CallRecord.duration_ms r).

Definition _aggregate (records : list CallRecord.t) : CostSummary.t :=
  fold_left aggregate_step records CostSummary.empty.

Definition session_summary (st : Store) : CostSummary.t :=
  _aggregate (snapshot st).

Definition conversation_summary (st : Store) (conversation_id : string)
    : CostSummary.t :=
  _aggregate
    (filter (fun r => CallRecord.conversation_id r = conversation_id)
       (snapshot st)).

Definition provider_summary (st : Store) (provider : string)
    : CostSummary.t :=
  _aggregate
    (filter (fun r => CallRecord.provider r = provider) (snapshot st)).

Definition caller_summary (st : Store) (caller : string) : CostSummary.t :=
  _aggregate (filter (fun r => CallRecord.caller r = caller) (snapshot st)).

(** ** Percentiles and per-agent observability *)

(** [sorted(values)]: the stable ascending sort. *)
Fixpoint insert_sorted (x : Q) (l : list Q) : list Q :=
  match l with
  | [] => [x]
  | y :: l' => if Qle_bool x y then x :: l else y :: insert_sorted x l'
  end.

Fixpoint sorted (l : list Q) : list Q :=
  match l with
  | [] => []
  | x :: l' => insert_sorted x (sorted l')
  end.

(** [sum(values)] *)
Definition sum (l : list Q) : Q := fold_left Qplus l 0.

Definition sumZ (l : list Z) : Z := fold_left Z.add l 0%Z.

(** [max(values)] of a non-empty list: the first of the greatest items. *)
Definition max_of (x : Q) (l : list Q) : Q :=
  fold_left (fun m y => if Qle_bool y m then m else y) l x.

(** [len(values)] *)
Definition len {A : Type} (l : list A) : Z := Z.of_nat (length l).

(** The index computed by [_percentile] for [n] values.  [n * pct / 100] is
    a quotient of integers and [int] drops its fractional part, rounding
    toward zero: [Z.quot]. *)
Definition percentile_index (n pct : Z) : Z :=
  Z.max 0 (Z.min (n - 1) (Z.quot (n * pct) 100)).

Definition _percentile (sorted_values : list Q) (pct : Z) : Q :=
  match sorted_values with
  | [] => 0
  | _ :: _ =>
      let k := percentile_index (len sorted_values) pct in
      default 0 (sorted_values !! Z.to_nat k)
  end.

(** The index as the specification words it: floor, then clamp. *)
Definition clamp (x lo hi : Z) : Z := Z.max lo (Z.min hi x).

Definition nearest_rank_index (n pct : Z) : Z :=
  clamp (Z.div (n * pct) 100) 0 (n - 1).

(** [x / n] with an [int] divisor: [ZeroDivisionError] ([None]) for [n = 0]. *)
Definition truediv (x : Q) (n : Z) : option Q :=
  if (n =? 0)%Z then None else Some (x / inject_Z n).

(** [CostTracker.agent_observability]; [None] stands for an exception. *)
Definition agent_observability (st : Store) (agent_name : string)
    : option AgentObservability.t :=
  let records :=
    filter (fun r => CallRecord.caller r = agent_name) (snapshot st) in
  match records with
  | [] => Some (AgentObservability.default agent_name)
  | _ :: _ =>
      let durations := sorted (map CallRecord.duration_ms records) in
      let success_count :=
        sumZ (map (fun _ => 1%Z)
                (filter (fun r => CallRecord.success r = true) records)) in
      let error_count := (len records - success_count)%Z in
      error_rate ← truediv (inject_Z error_count) (len records);
      avg_latency_ms ← truediv (sum durations) (len durations);
      Some (AgentObservability.Build
              agent_name
              (len records)
              error_count
              error_rate
              (sumZ (map CallRecord.total_tokens records))
              (sum (map CallRecord.estimated_cost_usd records))
              avg_latency_ms
              (_percentile durations 50)
              (_percentile durations 95)
              (match durations with
               | [] => 0
               | d :: ds => max_of d ds
               end))
  end.

(** The set of callers that [observability_report] collects. *)
Definition agent_names (st : Store) : gset string :=
  list_to_set (map CallRecord.caller (snapshot st)).

(** Field-wise sum of a list of summaries. *)
Definition sum_summaries (l : list CostSummary.t) : CostSummary.t :=
  fold_right CostSummary.add CostSummary.empty l.

(** The stores a program reaches through the tracker's own methods. *)
Inductive reachable : Store -> Prop :=
| reach_init : reachable init
| reach_record st a now : reachable st -> reachable (record st a now).1
| reach_reset st : reachable st -> reachable (reset st).

(** ** Threads calling [record]

    Each thread runs a sequence of [record] calls.  A call is cut at the
    points where another thread can run in between: the construction of the
    object happens outside the lock, then [with self._lock:] acquires the
    lock, the append happens, and the lock is released on leaving the
    block. *)

Module Threads.

Inductive Pc : Type :=
| Outside                 (* not inside a call *)
| Built (addr : nat)      (* object constructed, lock not yet taken *)
| Holding (addr : nat)    (* lock taken, append not yet done *)
| Appended (addr : nat).  (* append done, lock not yet released *)

Record Thread : Type := mkThread {
  pending : list RecordArgs.t;  (* the calls it has not started *)
  pc : Pc
}.

Record Config : Type := mkConfig {
  store : Store;
  locked : bool;                (* [self._lock] *)
  threads : list Thread
}.

(** One step of a thread; [None] when it has nothing to do or waits for
    the lock. *)
Definition thread_step (th : Thread) (st : Store) (lk : bool) (now : Q)
    : option (Thread * Store * bool) :=
  match pc th with
  | Outside =>
      match pending th with
      | [] => None
      | a :: rest =>
          let (st', addr) := alloc st (new_record a now) in
          Some (mkThread rest (Built addr), st', lk)
      end
  | Built addr =>
      if lk then None
      else Some (mkThread (pending th) (Holding addr), st, true)
  | Holding addr =>
      Some (mkThread (pending th) (Appended addr), append st addr, lk)
  | Appended addr =>
      Some (mkThread (pending th) Outside, st, false)
  end.

(** The scheduler lets thread [t] make its next step. *)
Definition sched_step (c : Config) (t : nat) (now : Q) : option Config :=
  match threads c !! t with
  | None => None
  | Some th =>
      match thread_step th (store c) (locked c) now with
      | None => None
      | Some (th', st', lk') =>
          Some (mkConfig st' lk' (<[t := th']> (threads c)))
      end
  end.

Definition step (c c' : Config) : Prop :=
  exists t now, sched_step c t now = Some c'.

(** A schedule run from a configuration. *)
Fixpoint run (schedule : list (nat * Q)) (c : Config) : option Config :=
  match schedule with
  | [] => Some c
  | (t, now) :: rest =>
      match sched_step c t now with
      | None => None
      | Some c' => run rest c'
      end
  end.

(** A fresh tracker and one thread per program. *)
Definition spawn (programs : list (list RecordArgs.t)) : Config :=
  mkConfig init false (map (fun p => mkThread p Outside) programs).

Definition thread_done (th : Thread) : bool :=
  match pc th, pending th with
  | Outside, [] => true
  | _, _ => false
  end.

(** Every thread has returned from its last call. *)
Definition finished (c : Config) : bool := forallb thread_done (threads c).

(** The objects a thread has constructed and not yet appended. *)
Definition inflight (th : Thread) : list nat :=
  match pc th with
  | Built a | Holding a => [a]
  | Outside | Appended _ => []
  end.

(** 1 for a thread between acquiring and releasing the lock. *)
Definition critical (th : Thread) : nat :=
  match pc th with
  | Holding _ | Appended _ => 1
  | Outside | Built _ => 0
  end.

(** The steps a thread still has to make. *)
Definition todo (th : Thread) : nat :=
  4 * length (pending th)
  + match pc th with
    | Outside => 0
    | Built _ => 3
    | Holding _ => 2
    | Appended _ => 1
    end.

Definition steps_left (c : Config) : nat := sum_list_with todo (threads c).

End Threads.

(** The arguments a record was made from. *)
Definition args_of (r : CallRecord.t) : RecordArgs.t :=
  RecordArgs.Build (CallRecord.provider r) (CallRecord.model r)
    (CallRecord.caller r) (CallRecord.conversation_id r)
    (CallRecord.prompt_tokens r) (CallRecord.completion_tokens r)
    (CallRecord.duration_ms r) (CallRecord.success r).

(** What stays true while threads run.  Every call of the programs is
    either not started or has its object in the store; every object is
    either in the ledger or held by the thread that built it, once; the lock
    is taken exactly when one thread is between acquiring and releasing
    it. *)
Definition calls_conserved (all : list RecordArgs.t) (c : Threads.Config)
    : Prop :=
  map args_of (heap (Threads.store c))
  ++ concat (map Threads.pending (Threads.threads c)) ≡ₚ all.

Definition objects_accounted (c : Threads.Config) : Prop :=
  _records (Threads.store c)
  ++ concat (map Threads.inflight (Threads.threads c))
  ≡ₚ seq 0 (length (heap (Threads.store c))).

Definition lock_discipline (c : Threads.Config) : Prop :=
  sum_list_with Threads.critical (Threads.threads c)
  = if Threads.locked c then 1%nat else 0%nat.

Definition thread_inv (all : list RecordArgs.t) (c : Threads.Config) : Prop :=
  calls_conserved all c /\ objects_accounted c /\ lock_discipline c.

(** ** Sample stores *)

Definition sample_args (model caller : string) (p c : Z) (d : Q) (ok : bool)
    : RecordArgs.t :=
  RecordArgs.Build "together" model caller "conv-123" p c d ok.

Definition sample_store : Store :=
  let s1 := (record init (sample_args "deepseek-ai/DeepSeek-V3.1" "jd_agent" 500 200 1200 true) 1).1 in
  let s2 := (record s1 (sample_args "GPT-4o-Mini" "judge" 1000 0 30 true) 2).1 in
  let s3 := (record s2 (sample_args "gpt-4o" "jd_agent" 10 10 50 false) 3).1 in
  s3.

(** The record that a sample call creates. *)
Definition sample_args_record (model caller : string) (p c : Z) (d : Q)
    (now : Q) : CallRecord.t :=
  new_record (sample_args model caller p c d true) now.

(** Five calls of one agent, recorded in no particular order of duration. *)
Definition five_calls : Store :=
  let call d := sample_args "gpt-4o" "agent" 10 10 d true in
  let s1 := (record init (call 30) 1).1 in
  let s2 := (record s1 (call 10) 2).1 in
  let s3 := (record s2 (call 50) 3).1 in
  let s4 := (record s3 (call 20) 4).1 in
  (record s4 (call 40) 5).1.

(** Two threads, one call each; the second thread gets the lock first. *)
Definition two_programs : list (list RecordArgs.t) :=
  [ [sample_args "gpt-4o" "judge" 10 10 30 true];
    [sample_args "claude-opus-4" "jd_agent" 20 5 40 false] ].

Definition two_schedule : list (nat * Q) :=
  [ (0%nat, 1); (1%nat, 2); (1%nat, 3); (1%nat, 4); (1%nat, 5);
    (0%nat, 6); (0%nat, 7); (0%nat, 8) ].

(** ** The report and programs that drive the tracker *)

(** [sorted(names)] on strings: Python orders [str] by code points, the
    shorter of two strings first when it is a prefix of the other. *)
Fixpoint insert_name (x : string) (l : list string) : list string :=
  match l with
  | [] => [x]
  | y :: l' => if String.leb x y then x :: l else y :: insert_name x l'
  end.

Fixpoint sorted_names (l : list string) : list string :=
  match l with
  | [] => []
  | x :: l' => insert_name x (sorted_names l')
  end.

(** [CostTracker.observability_report]: the dict it builds, as the list of
    its items in insertion order; [None] stands for an exception raised by
    [agent_observability]. *)
Definition observability_report (st : Store)
    : option (list (string * AgentObservability.t)) :=
  mapM (fun name => o ← agent_observability st name; Some (name, o))
    (sorted_names (elements (agent_names st))).

(** A program that calls [record] once per item, in order; an item is the
    keyword arguments and the clock reading of the call. *)
Definition record_all (st : Store) (calls : list (RecordArgs.t * Q)) : Store :=
  fold_left (fun s call => (record s call.1 call.2).1) calls st.

(** The cost frozen in a record at its creation. *)
Definition cost_is_frozen_estimate (r : CallRecord.t) : Prop :=
  CallRecord.estimated_cost_usd r
  = if CallRecord.success r
    then _estimate_cost (CallRecord.model r) (CallRecord.prompt_tokens r)
           (CallRecord.completion_tokens r)
    else 0.

(** The arguments of the call whose object a thread has built and not yet
    appended. *)
Definition inflight_args (h : list CallRecord.t) (th : Threads.Thread)
    : list RecordArgs.t :=
  omap (fun a => args_of <$> h !! a) (Threads.inflight th).

(** The records of the objects at the given addresses. *)
Definition deref_all (h : list CallRecord.t) (addrs : list nat)
    : list CallRecord.t :=
  omap (fun a => h !! a) addrs.

(** A thread that runs the program [po.1] and has appended the objects
    [po.2], in this order: the program is the calls of these objects, then
    the call in flight, then the calls not started; and the objects occur in
    the ledger [recs] in this order. *)
Definition thread_owns (h : list CallRecord.t) (recs : list nat)
    (th : Threads.Thread) (po : list RecordArgs.t * list nat) : Prop :=
  po.1 = map args_of (deref_all h po.2) ++ inflight_args h th
         ++ Threads.pending th
  /\ length (deref_all h po.2) = length po.2
  /\ length (inflight_args h th) = length (Threads.inflight th)
  /\ po.2 `sublist_of` recs.

(** Every entry of the ledger belongs to the thread that appended it. *)
Definition owner_inv (programs : list (list RecordArgs.t))
    (c : Threads.Config) : Prop :=
  exists tagged : list (list RecordArgs.t * list nat),
    map fst tagged = programs
    /\ Forall2
         (thread_owns (heap (Threads.store c)) (_records (Threads.store c)))
         (Threads.threads c) tagged
    /\ concat (map snd tagged) ≡ₚ _records (Threads.store c).

(** ** Examples *)

Example sample_session :
  session_summary sample_store
  = CostSummary.Build 3 2 1 1510 210 1720
      (0 + (inject_Z 500 / 1000 * 0.00015 + inject_Z 200 / 1000 * 0.00045)
         + (inject_Z 1000 / 1000 * 0.00015 + inject_Z 0 / 1000 * 0.0006) + 0)
      (0 + 1200 + 30 + 50).
Proof. reflexivity. Qed.

Example sample_caller :
  CostSummary.total_calls (caller_summary sample_store "jd_agent") = 2%Z.
Proof. vm_compute. reflexivity. Qed.

Example sample_names : agent_names sample_store = {[ "jd_agent"; "judge" ]}.
Proof. vm_compute. reflexivity. Qed.

Example sample_obs :
  exists o,
    agent_observability sample_store "jd_agent" = Some o
    /\ AgentObservability.call_count o = 2%Z
    /\ AgentObservability.error_count o = 1%Z
    /\ AgentObservability.error_rate o == 0.5
    /\ AgentObservability.avg_latency_ms o == 625
    /\ AgentObservability.p50_latency_ms o = 1200
    /\ AgentObservability.max_latency_ms o = 1200.
Proof. eexists. split; [vm_compute; reflexivity |]. repeat split. Qed.

(** While the second thread holds the lock the first one cannot enter. *)
Example lock_blocks_other_thread :
  match Threads.run [(0%nat, 1); (1%nat, 2); (1%nat, 3)]
          (Threads.spawn two_programs) with
  | Some c => Threads.locked c = true /\ Threads.sched_step c 0 4 = None
  | None => False
  end.
Proof. vm_compute. split; reflexivity. Qed.

Example lower_sample : Str.lower "DeepSeek-V3.1" = "deepseek-v3.1"%string.
Proof. reflexivity. Qed.

(** Code points 195 (capital A with tilde) and 215 (multiplication sign). *)
Example chr_lower_latin1 :
  Str.chr_lower (ascii_of_nat 195) = ascii_of_nat 227
  /\ Str.chr_lower (ascii_of_nat 215) = ascii_of_nat 215.
Proof. split; reflexivity. Qed.

Example contains_sample :
  Str.contains "gpt-4o" (Str.lower "OpenAI/GPT-4o-2024") = true
  /\ Str.contains "gpt-4o-mini" (Str.lower "OpenAI/GPT-4o-2024") = false.
Proof. split; reflexivity. Qed.

(** ** Facts about strings *)

Section StrFacts.
Import Str.

Lemma lower_app (a b : string) :
  lower (a ++ b) = (lower a ++ lower b)%string.
Proof. induction a as [|ch a IH]; simpl; [reflexivity | now rewrite IH]. Qed.

Lemma lower_app_inv (s a b : string) :
  lower s = (a ++ b)%string ->
  exists s1 s2, s = (s1 ++ s2)%string /\ lower s1 = a /\ lower s2 = b.
Proof.
  revert s. induction a as [|ch a IH]; intros s H.
  - exists EmptyString, s. auto.
  - destruct s as [|c0 s]; simpl in H; [discriminate |].
    injection H as Hc Hs.
    destruct (IH s Hs) as (s1 & s2 & -> & H1 & H2).
    exists (String c0 s1), s2. simpl. now rewrite Hc, H1.
Qed.

Lemma startswith_spec (p s : string) :
  startswith p s = true <-> exists suf, s = (p ++ suf)%string.
Proof.
  revert s. induction p as [|a p IH]; intros s; simpl.
  - split; [intros _; now exists s | reflexivity].
  - destruct s as [|b s].
    + split; [discriminate | intros [suf H]; discriminate].
    + rewrite andb_true_iff, Ascii.eqb_eq, IH. split.
      * intros [-> [suf ->]]. now exists suf.
      * intros [suf H]. injection H as -> ->. split; [reflexivity | now exists suf].
Qed.

Lemma contains_spec (p s : string) :
  contains p s = true <->
  exists pre suf, s = (pre ++ p ++ suf)%string.
Proof.
  induction s as [|b s IH].
  - simpl. rewrite orb_false_r, startswith_spec. split.
    + intros [suf H]. now exists EmptyString, suf.
    + intros (pre & suf & H). destruct pre; [now exists suf | discriminate].
  - cbn [contains]. rewrite orb_true_iff, startswith_spec, IH. split.
    + intros [[suf H] | (pre & suf & ->)].
      * now exists EmptyString, suf.
      * now exists (String b pre), suf.
    + intros (pre & suf & H). destruct pre as [|c0 pre].
      * left. now exists suf.
      * right. injection H as _ ->. now exists pre, suf.
Qed.

(** The test made by the code against a lower-case prefix is the
    case-insensitive occurrence. *)
Lemma contains_lower_ci (p s : string) :
  lower p = p ->
  (contains p (lower s) = true <-> ci_substring p s).
Proof.
  intros Hp. rewrite contains_spec. unfold ci_substring. split.
  - intros (pre & suf & H).
    apply lower_app_inv in H as (s1 & s23 & -> & H1 & H23).
    apply lower_app_inv in H23 as (s2 & s3 & -> & H2 & H3).
    exists s1, s2, s3. split; [reflexivity | congruence].
  - intros (pre & mid & suf & -> & H).
    exists (lower pre), (lower suf).
    rewrite !lower_app. congruence.
Qed.

End StrFacts.

(** ** Facts about the pricing resolver *)

Definition lowercase_prefixes (items : list (string * (Q * Q))) : Prop :=
  Forall (fun e => Str.lower e.1 = e.1) items.

Definition nonneg_rates (items : list (string * (Q * Q))) : Prop :=
  Forall (fun e => 0 <= e.2.1 /\ 0 <= e.2.2) items.

Lemma default_pricing_lowercase : lowercase_prefixes _DEFAULT_PRICING.
Proof. repeat constructor. Qed.

Lemma default_pricing_nonneg : nonneg_rates _DEFAULT_PRICING.
Proof. repeat constructor; discriminate. Qed.

Lemma inject_Z_nonneg (z : Z) : (0 <= z)%Z -> 0 <= inject_Z z.
Proof. intros H. change 0 with (inject_Z 0). now rewrite <- Zle_Qle. Qed.

Lemma per_thousand_nonneg (z : Z) : (0 <= z)%Z -> 0 <= inject_Z z / 1000.
Proof.
  intros H. apply inject_Z_nonneg in H.
  unfold Qdiv. change (/ 1000) with (1 # 1000). lra.
Qed.

Lemma cost_at_nonneg (pr cr : Q) (p c : Z) :
  0 <= pr -> 0 <= cr -> (0 <= p)%Z -> (0 <= c)%Z -> 0 <= cost_at pr cr p c.
Proof.
  intros Hpr Hcr Hp Hc. unfold cost_at.
  apply per_thousand_nonneg in Hp, Hc.
  pose proof (Qmult_le_0_compat _ _ Hp Hpr).
  pose proof (Qmult_le_0_compat _ _ Hc Hcr). lra.
Qed.

(** The loop returns at the first entry whose prefix occurs. *)
Lemma estimate_over_first_match items model p c i prefix pr cr :
  lowercase_prefixes items ->
  items !! i = Some (prefix, (pr, cr)) ->
  Str.ci_substring prefix model ->
  (forall j e, (j < i)%nat -> items !! j = Some e ->
     ~ Str.ci_substring e.1 model) ->
  estimate_over items model p c = cost_at pr cr p c.
Proof.
  intros Hlow. revert i. induction Hlow as [|[q [qr qc]] items Hq Hlow IH];
    intros i Hi Hm Hfirst; [discriminate |].
  cbn [estimate_over]. simpl in Hq.
  destruct (Str.contains q (Str.lower model)) eqn:E.
  - destruct i as [|i].
    + injection Hi as -> -> ->. reflexivity.
    + exfalso. apply (Hfirst 0%nat (q, (qr, qc))); [lia | reflexivity |].
      simpl. now apply contains_lower_ci.
  - destruct i as [|i].
    + injection Hi as -> -> ->.
      apply contains_lower_ci in Hm; [congruence | assumption].
    + apply (IH i Hi Hm). intros j e Hj He.
      apply (Hfirst (S j) e); [lia | exact He].
Qed.

Lemma estimate_over_no_match items model p c :
  lowercase_prefixes items ->
  (forall e, e ∈ items -> ~ Str.ci_substring e.1 model) ->
  estimate_over items model p c = cost_at 0.003 0.015 p c.
Proof.
  induction 1 as [|[q [qr qc]] items Hq Hlow IH]; intros Hno; [reflexivity |].
  cbn [estimate_over]. simpl in Hq.
  destruct (Str.contains q (Str.lower model)) eqn:E.
  - exfalso. apply (Hno (q, (qr, qc))); [left |].
    simpl. now apply contains_lower_ci.
  - apply IH. intros e He. apply Hno. now right.
Qed.

Lemma estimate_over_nonneg items model p c :
  nonneg_rates items -> (0 <= p)%Z -> (0 <= c)%Z ->
  0 <= estimate_over items model p c.
Proof.
  intros Hnn Hp Hc. induction Hnn as [|[q [qr qc]] items [Hr Hc'] Hnn IH].
  - apply (cost_at_nonneg 0.003 0.015); [discriminate | discriminate | | ]; assumption.
  - cbn [estimate_over]. destruct (Str.contains q (Str.lower model)).
    + now apply (cost_at_nonneg qr qc).
    + exact IH.
Qed.

(** Case analysis on an entry of the default table. *)
Ltac table_cases H :=
  unfold _DEFAULT_PRICING in H;
  repeat (apply elem_of_cons in H as [H | H]);
  [ .. | apply elem_of_nil in H; contradiction ];
  inversion H; subst; clear H.

Lemma no_match_by_test (model : string) :
  forallb (fun e => negb (Str.contains e.1 (Str.lower model)))
    _DEFAULT_PRICING = true ->
  forall e, e ∈ _DEFAULT_PRICING -> ~ Str.ci_substring e.1 model.
Proof.
  intros Hall e He Hci.
  rewrite forallb_forall in Hall.
  specialize (Hall e (proj1 (list_elem_of_In _ _) He)).
  apply contains_lower_ci in Hci.
  - rewrite Hci in Hall. discriminate.
  - pose proof default_pricing_lowercase as Hlow.
    unfold lowercase_prefixes in Hlow. rewrite Forall_forall in Hlow.
    now apply Hlow.
Qed.

(** C4: [_estimate_cost] walks the table in order; the test it makes on an
    entry is the case-insensitive occurrence of the entry's prefix in the
    model identifier; at the first entry that matches it returns exactly
    [(prompt_tokens/1000)*prompt_rate + (completion_tokens/1000)*completion_rate];
    and for non-negative token counts the result is never negative. *)
Theorem estimate_cost_first_match (model : string) (p c : Z) :
  (forall prefix rates, (prefix, rates) ∈ _DEFAULT_PRICING ->
     (Str.contains prefix (Str.lower model) = true
      <-> Str.ci_substring prefix model))
  /\ (forall i prefix pr cr,
        _DEFAULT_PRICING !! i = Some (prefix, (pr, cr)) ->
        Str.ci_substring prefix model ->
        (forall j e, (j < i)%nat -> _DEFAULT_PRICING !! j = Some e ->
           ~ Str.ci_substring e.1 model) ->
        _estimate_cost model p c
        = (inject_Z p / 1000) * pr + (inject_Z c / 1000) * cr)
  /\ ((0 <= p)%Z -> (0 <= c)%Z -> 0 <= _estimate_cost model p c).
Proof.
  split; [| split].
  - intros prefix rates He. apply contains_lower_ci.
    pose proof default_pricing_lowercase as Hlow.
    unfold lowercase_prefixes in Hlow. rewrite Forall_forall in Hlow.
    exact (Hlow _ He).
  - intros i prefix pr cr Hi Hm Hfirst.
    exact (estimate_over_first_match _ model p c i prefix pr cr
             default_pricing_lowercase Hi Hm Hfirst).
  - intros Hp Hc.
    exact (estimate_over_nonneg _ model p c default_pricing_nonneg Hp Hc).
Qed.

(** "GPT-4o-Mini-2024" matches both "gpt-4o-mini" and "gpt-4o"; the entry
    that comes first in the table sets the price. *)
Lemma estimate_cost_first_match_witness :
  _estimate_cost "GPT-4o-Mini-2024" 1000 500
  = (inject_Z 1000 / 1000) * 0.00015 + (inject_Z 500 / 1000) * 0.0006
  /\ 0 <= _estimate_cost "GPT-4o-Mini-2024" 1000 500.
Proof.
  destruct (estimate_cost_first_match "GPT-4o-Mini-2024" 1000 500)
    as (_ & Hfirst & Hnn).
  split.
  - apply (Hfirst 5%nat "gpt-4o-mini"%string).
    + reflexivity.
    + exists ""%string, "GPT-4o-Mini"%string, "-2024"%string.
      split; reflexivity.
    + intros j e Hj He.
      assert (Hin : e ∈ take 5 _DEFAULT_PRICING).
      { apply list_elem_of_lookup. exists j. rewrite lookup_take_lt; assumption. }
      intros Hci. apply contains_lower_ci in Hci.
      * revert Hci. vm_compute in Hin.
        repeat (apply elem_of_cons in Hin as [-> | Hin]);
          [ .. | apply elem_of_nil in Hin; contradiction ];
          vm_compute; discriminate.
      * vm_compute in Hin.
        repeat (apply elem_of_cons in Hin as [-> | Hin]);
          [ .. | apply elem_of_nil in Hin; contradiction ]; reflexivity.
  - apply Hnn; lia.
Defined.

(** C1 (as amended): for a model identifier in which no configured prefix
    occurs and non-negative token counts, [_estimate_cost] charges the
    fallback rates 0.003 and 0.015 per thousand tokens; these are at least the
    rates of every entry of the table other than "claude-opus", so the
    fallback cost is never lower than the cost any such entry gives for the
    same token counts. *)
Theorem fallback_covers_all_but_opus (model : string) (p c : Z) :
  (forall e, e ∈ _DEFAULT_PRICING -> ~ Str.ci_substring e.1 model) ->
  (0 <= p)%Z -> (0 <= c)%Z ->
  _estimate_cost model p c = cost_at 0.003 0.015 p c
  /\ forall prefix pr cr,
       (prefix, (pr, cr)) ∈ _DEFAULT_PRICING ->
       prefix <> "claude-opus"%string ->
       pr <= 0.003 /\ cr <= 0.015
       /\ cost_at pr cr p c <= _estimate_cost model p c.
Proof.
  intros Hno Hp Hc.
  assert (Hfb : _estimate_cost model p c = cost_at 0.003 0.015 p c).
  { apply estimate_over_no_match; [apply default_pricing_lowercase | exact Hno]. }
  split; [exact Hfb |].
  intros prefix pr cr He Hne. rewrite Hfb.
  apply inject_Z_nonneg in Hp, Hc.
  unfold cost_at, Qdiv. change (/ 1000) with (1 # 1000).
  table_cases He; try congruence;
    (split; [discriminate | split; [discriminate | lra]]).
Qed.

Lemma fallback_covers_all_but_opus_witness :
  _estimate_cost "mistral-large" 2000 1000 = cost_at 0.003 0.015 2000 1000
  /\ cost_at 0.0025 0.01 2000 1000 <= _estimate_cost "mistral-large" 2000 1000.
Proof.
  destruct (fallback_covers_all_but_opus "mistral-large" 2000 1000)
    as [Hfb Hle].
  - apply no_match_by_test. reflexivity.
  - lia.
  - lia.
  - split; [exact Hfb |].
    apply (Hle "gpt-4o"%string 0.0025 0.01).
    + unfold _DEFAULT_PRICING. do 6 apply list_elem_of_further.
      apply list_elem_of_here.
    + discriminate.
Defined.

(** C1 as stated fails: "mistral-large" matches no prefix, and for 1000
    prompt tokens the fallback charges 0.003 where the "claude-opus" entry
    charges 0.015. *)
Lemma fallback_below_opus :
  ~ (forall (model : string) (p c : Z),
       (forall e, e ∈ _DEFAULT_PRICING -> ~ Str.ci_substring e.1 model) ->
       (0 <= p)%Z -> (0 <= c)%Z ->
       forall prefix pr cr,
         (prefix, (pr, cr)) ∈ _DEFAULT_PRICING ->
         cost_at pr cr p c <= _estimate_cost model p c).
Proof.
  intros H.
  assert (Hno : forall e, e ∈ _DEFAULT_PRICING ->
                  ~ Str.ci_substring e.1 "mistral-large").
  { apply no_match_by_test. reflexivity. }
  assert (Hopus : ("claude-opus"%string, (0.015, 0.075)) ∈ _DEFAULT_PRICING).
  { unfold _DEFAULT_PRICING. do 4 apply list_elem_of_further.
    apply list_elem_of_here. }
  specialize (H "mistral-large"%string 1000%Z 0%Z Hno
                ltac:(lia) ltac:(lia) _ _ _ Hopus).
  apply H. reflexivity.
Qed.

(** ** Facts about sorting, the maximum and the percentile index *)

Lemma Qle_bool_false (x y : Q) : Qle_bool x y = false -> y <= x.
Proof.
  intros H. apply Qlt_le_weak, Qnot_le_lt.
  intros Hle. apply Qle_bool_iff in Hle. congruence.
Qed.

Lemma insert_sorted_perm (x : Q) (l : list Q) : insert_sorted x l ≡ₚ x :: l.
Proof.
  induction l as [|y l IH]; simpl; [reflexivity |].
  destruct (Qle_bool x y); [reflexivity |].
  rewrite IH. apply perm_swap.
Qed.

Lemma sorted_perm (l : list Q) : sorted l ≡ₚ l.
Proof.
  induction l as [|x l IH]; simpl; [reflexivity |].
  now rewrite insert_sorted_perm, IH.
Qed.

Lemma sorted_length (l : list Q) : length (sorted l) = length l.
Proof. now rewrite (sorted_perm l). Qed.

Lemma insert_sorted_ascending (x : Q) (l : list Q) :
  StronglySorted Qle l -> StronglySorted Qle (insert_sorted x l).
Proof.
  induction 1 as [|y l Hs IH Hy]; simpl.
  - repeat constructor.
  - destruct (Qle_bool x y) eqn:E.
    + apply Qle_bool_iff in E. constructor; [now constructor |].
      constructor; [exact E |].
      eapply Forall_impl; [exact Hy |]. simpl. intros z Hz.
      now apply Qle_trans with y.
    + apply Qle_bool_false in E. constructor; [exact IH |].
      rewrite (insert_sorted_perm x l). now constructor.
Qed.

Lemma sorted_ascending (l : list Q) : StronglySorted Qle (sorted l).
Proof.
  induction l as [|x l IH]; simpl; [constructor |].
  now apply insert_sorted_ascending.
Qed.

Lemma ascending_lookup (l : list Q) (i j : nat) (x y : Q) :
  StronglySorted Qle l ->
  l !! i = Some x -> l !! j = Some y -> (i <= j)%nat -> x <= y.
Proof.
  intros Hs. revert i j. induction Hs as [|z l Hs IH Hz]; intros i j Hi Hj Hij.
  - discriminate.
  - destruct i as [|i], j as [|j]; simpl in Hi, Hj.
    + injection Hi as <-. injection Hj as <-. apply Qle_refl.
    + injection Hi as <-. rewrite Forall_forall in Hz. apply Hz.
      eapply list_elem_of_lookup_2. exact Hj.
    + lia.
    + apply (IH i j Hi Hj). lia.
Qed.

(** [max_of] keeps an item of the list that no item exceeds. *)
Lemma max_of_spec (l : list Q) (x : Q) :
  max_of x l ∈ x :: l /\ forall y, y ∈ x :: l -> y <= max_of x l.
Proof.
  unfold max_of. revert x. induction l as [|z l IH]; intros x; simpl.
  - split; [left |]. intros y Hy. apply list_elem_of_singleton in Hy as ->.
    apply Qle_refl.
  - destruct (Qle_bool z x) eqn:E.
    + apply Qle_bool_iff in E. destruct (IH x) as [Hin Hmax]. split.
      * apply elem_of_cons in Hin as [-> | Hin]; [left | right; now right].
      * intros y Hy. apply elem_of_cons in Hy as [-> | Hy].
        { apply Hmax. left. }
        apply elem_of_cons in Hy as [-> | Hy].
        { apply Qle_trans with x; [exact E | apply Hmax; left]. }
        apply Hmax. now right.
    + apply Qle_bool_false in E. destruct (IH z) as [Hin Hmax]. split.
      * now right.
      * intros y Hy. apply elem_of_cons in Hy as [-> | Hy].
        { apply Qle_trans with z; [exact E | apply Hmax; left]. }
        now apply Hmax.
Qed.

Lemma len_pos {A} (l : list A) : l <> [] -> (0 < len l)%Z.
Proof. destruct l; [congruence |]. unfold len. simpl. lia. Qed.

Lemma percentile_index_floor (n pct : Z) :
  (0 < n)%Z -> percentile_index n pct = nearest_rank_index n pct.
Proof.
  intros Hn. unfold percentile_index, nearest_rank_index, clamp.
  destruct (Z.le_gt_cases 0 (n * pct)) as [Hnn | Hneg].
  - now rewrite Z.quot_div_nonneg by lia.
  - assert (Hq : (Z.quot (n * pct) 100 <= 0)%Z).
    { apply Z.quot_le_upper_bound; lia. }
    assert (Hd : (n * pct / 100 < 0)%Z).
    { apply Z.div_lt_upper_bound; lia. }
    lia.
Qed.

Lemma percentile_index_range (n pct : Z) :
  (0 < n)%Z -> (0 <= percentile_index n pct < n)%Z.
Proof. unfold percentile_index. lia. Qed.

Lemma percentile_index_mono (n p q : Z) :
  (0 < n)%Z -> (p <= q)%Z -> (percentile_index n p <= percentile_index n q)%Z.
Proof.
  intros Hn Hpq. unfold percentile_index.
  assert ((Z.quot (n * p) 100 <= Z.quot (n * q) 100)%Z).
  { apply Z.quot_le_mono; [lia |]. apply Z.mul_le_mono_nonneg_l; lia. }
  lia.
Qed.

(** On a non-empty list the subscript of [_percentile] is in range. *)
Lemma percentile_lookup (values : list Q) (pct : Z) :
  values <> [] ->
  values !! Z.to_nat (percentile_index (len values) pct)
  = Some (_percentile values pct).
Proof.
  intros Hne.
  pose proof (percentile_index_range (len values) pct (len_pos _ Hne)) as Hr.
  destruct (lookup_lt_is_Some_2 values
              (Z.to_nat (percentile_index (len values) pct))) as [v Hv].
  { unfold len in *. lia. }
  destruct values as [|v0 vs]; [congruence |].
  unfold _percentile. now rewrite Hv.
Qed.


(** ** Facts about the store *)

Lemma wf_init : wf init.
Proof. constructor. Qed.

Lemma wf_record st a now : wf st -> wf (record st a now).1.
Proof.
  unfold wf, record, alloc, append. simpl. intros H.
  rewrite length_app. simpl. apply Forall_app. split.
  - eapply Forall_impl; [exact H |]. simpl. intros; lia.
  - repeat constructor. lia.
Qed.

Lemma wf_reset st : wf (reset st).
Proof. constructor. Qed.

Lemma wf_reachable st : reachable st -> wf st.
Proof.
  induction 1; [apply wf_init | now apply wf_record | apply wf_reset].
Qed.

(** Creating an object leaves the objects of valid addresses as they were. *)
Lemma omap_lookup_grow (h : list CallRecord.t) (r : CallRecord.t)
    (addrs : list nat) :
  Forall (fun a => (a < length h)%nat) addrs ->
  omap (fun a => (h ++ [r]) !! a) addrs = omap (fun a => h !! a) addrs.
Proof.
  induction 1 as [|a addrs Ha _ IH]; [reflexivity |].
  csimpl. rewrite IH, (lookup_app_l h [r] a Ha). reflexivity.
Qed.

Lemma record_returns st a now :
  heap (record st a now).1 !! (record st a now).2 = Some (new_record a now)
  /\ last (_records (record st a now).1) = Some (record st a now).2.
Proof.
  unfold record, alloc, append. simpl. split.
  - rewrite lookup_app_r by lia. now rewrite Nat.sub_diag.
  - apply last_snoc.
Qed.

Lemma snapshot_record st a now :
  wf st -> snapshot (record st a now).1 = snapshot st ++ [new_record a now].
Proof.
  intros Hwf. unfold snapshot, record, alloc, append. simpl.
  rewrite omap_app, (omap_lookup_grow _ _ _ Hwf). f_equal.
  simpl. rewrite lookup_app_r by lia. now rewrite Nat.sub_diag.
Qed.

(** An assignment through the object that [record] returned is seen in the
    ledger: the last record of the snapshot is the changed one. *)
Lemma setattr_returned_record st a now upd :
  wf st ->
  snapshot (setattr (record st a now).1 (record st a now).2 upd)
  = snapshot st ++ [upd (new_record a now)].
Proof.
  intros Hwf. unfold snapshot, setattr, record, alloc, append. simpl.
  rewrite omap_app. f_equal.
  - unfold wf in Hwf. induction Hwf as [|x addrs Hx _ IH]; [reflexivity |].
    csimpl. rewrite IH, list_lookup_alter_ne by lia.
    now rewrite (lookup_app_l _ _ x Hx).
  - csimpl. rewrite list_lookup_alter_eq.
    rewrite lookup_app_r by lia. now rewrite Nat.sub_diag.
Qed.

Lemma snapshot_reset st : snapshot (reset st) = [].
Proof. reflexivity. Qed.

Lemma snapshot_length st : wf st -> length (snapshot st) = length (_records st).
Proof.
  unfold wf, snapshot. induction 1 as [|a addrs Ha _ IH]; [reflexivity |].
  csimpl. destruct (lookup_lt_is_Some_2 _ _ Ha) as [r ->]. simpl. now rewrite IH.
Qed.

Lemma filter_none {A} (P : A -> Prop) `{!forall x, Decision (P x)} (l : list A) :
  (forall x, x ∈ l -> ~ P x) -> filter P l = [].
Proof.
  induction l as [|x l IH]; intros Hn; [reflexivity |].
  rewrite filter_cons_False.
  - apply IH. intros y Hy. apply Hn. now right.
  - apply Hn. left.
Qed.

(** The derived field holds on every object the tracker has created. *)
Definition total_is_sum (r : CallRecord.t) : Prop :=
  CallRecord.total_tokens r
  = (CallRecord.prompt_tokens r + CallRecord.completion_tokens r)%Z.

Lemma reachable_heap_totals st : reachable st -> Forall total_is_sum (heap st).
Proof.
  induction 1 as [| st a now _ IH | st _ IH]; simpl.
  - constructor.
  - apply Forall_app. split; [exact IH |]. repeat constructor.
  - exact IH.
Qed.

Lemma snapshot_subset st r : r ∈ snapshot st -> r ∈ heap st.
Proof.
  unfold snapshot. rewrite list_elem_of_omap. intros (a & _ & Ha).
  eapply list_elem_of_lookup_2. exact Ha.
Qed.

Lemma sample_store_reachable : reachable sample_store.
Proof. unfold sample_store. repeat apply reach_record. apply reach_init. Qed.

Lemma truediv_nonzero (x : Q) (n : Z) :
  n <> 0%Z -> truediv x n = Some (x / inject_Z n).
Proof.
  intros Hn. unfold truediv. now rewrite (proj2 (Z.eqb_neq n 0) Hn).
Qed.

(** The shape of the result of [agent_observability] on a non-empty
    selection: both divisions have a non-zero divisor. *)
Lemma agent_observability_nonempty st name r0 rs :
  filter (fun r => CallRecord.caller r = name) (snapshot st) = r0 :: rs ->
  let records := r0 :: rs in
  let durations := sorted (map CallRecord.duration_ms records) in
  let error_count :=
    (len records
     - sumZ (map (fun _ => 1%Z)
               (filter (fun r => CallRecord.success r = true) records)))%Z in
  agent_observability st name
  = Some (AgentObservability.Build name (len records) error_count
            (inject_Z error_count / inject_Z (len records))
            (sumZ (map CallRecord.total_tokens records))
            (sum (map CallRecord.estimated_cost_usd records))
            (sum durations / inject_Z (len durations))
            (_percentile durations 50) (_percentile durations 95)
            (match durations with
             | [] => 0
             | d :: ds => max_of d ds
             end)).
Proof.
  intros E. unfold agent_observability. rewrite E. cbv zeta.
  assert (Hn : (0 < len (r0 :: rs))%Z) by (apply len_pos; discriminate).
  assert (Hd : (0 < len (sorted (map CallRecord.duration_ms (r0 :: rs))))%Z).
  { unfold len in *. now rewrite sorted_length, length_map. }
  rewrite (truediv_nonzero _ (len (r0 :: rs))) by lia.
  cbn [mbind option_bind].
  rewrite (truediv_nonzero _ (len (sorted _))) by lia.
  reflexivity.
Qed.

Lemma agent_observability_returns st name :
  exists o, agent_observability st name = Some o.
Proof.
  destruct (filter (fun r => CallRecord.caller r = name) (snapshot st))
    as [|r0 rs] eqn:E.
  - unfold agent_observability. rewrite E. eauto.
  - eexists. apply (agent_observability_nonempty _ _ _ _ E).
Qed.

(** ** The ledger's records *)

(** C5: the record that a call of [record] stores (the object it returns,
    which is the last entry of the ledger) has [estimated_cost_usd] exactly
    0 when [success] is false, and the estimate of [_estimate_cost] for the
    call's model and token counts when [success] is true. *)
Theorem record_cost (st : Store) (a : RecordArgs.t) (now : Q) :
  exists r,
    heap (record st a now).1 !! (record st a now).2 = Some r
    /\ last (_records (record st a now).1) = Some (record st a now).2
    /\ last (snapshot (record st a now).1) = Some r
    /\ CallRecord.estimated_cost_usd r
       = if RecordArgs.success a
         then _estimate_cost (RecordArgs.model a) (RecordArgs.prompt_tokens a)
                (RecordArgs.completion_tokens a)
         else 0.
Proof.
  exists (new_record a now).
  destruct (record_returns st a now) as [Hget Hlast].
  repeat split; try assumption.
  - unfold snapshot, record, alloc, append. simpl.
    rewrite omap_app. simpl.
    rewrite lookup_app_r by lia. rewrite Nat.sub_diag. simpl.
    apply last_snoc.
Qed.

(** What [record] stores: the object it returns is the last entry of the
    ledger, and its token fields are the counts given and their sum. *)
Lemma record_stores_total (st : Store) (a : RecordArgs.t) (now : Q) :
  exists r,
    heap (record st a now).1 !! (record st a now).2 = Some r
    /\ last (_records (record st a now).1) = Some (record st a now).2
    /\ last (snapshot (record st a now).1) = Some r
    /\ CallRecord.prompt_tokens r = RecordArgs.prompt_tokens a
    /\ CallRecord.completion_tokens r = RecordArgs.completion_tokens a
    /\ CallRecord.total_tokens r
       = (RecordArgs.prompt_tokens a + RecordArgs.completion_tokens a)%Z.
Proof.
  exists (new_record a now).
  destruct (record_returns st a now) as [Hget Hlast].
  repeat split; try assumption.
  unfold snapshot, record, alloc, append. simpl.
  rewrite omap_app. simpl.
  rewrite lookup_app_r by lia. rewrite Nat.sub_diag. simpl.
  apply last_snoc.
Qed.

(** The tracker's own methods keep the equation on every record of the
    ledger. *)
Lemma ledger_totals_under_tracker_methods (st : Store) :
  reachable st -> Forall total_is_sum (snapshot st).
Proof.
  intros Hreach. apply Forall_forall. intros r Hr.
  apply snapshot_subset in Hr.
  pose proof (reachable_heap_totals st Hreach) as Hall.
  rewrite Forall_forall in Hall. exact (Hall r Hr).
Qed.

(** C6, on the code: the record that [record] stores has
    [total_tokens = prompt_tokens + completion_tokens], but the equation does
    not hold for every record ever present in the ledger.  After
    [r = record(prompt_tokens=1, completion_tokens=1, ...)] on a fresh
    tracker and the assignment [r.prompt_tokens = 100], the one record of the
    ledger has [total_tokens = 2], [prompt_tokens = 100] and
    [completion_tokens = 1]. *)
Lemma ledger_total_broken_by_assignment :
  let call := sample_args "gpt-4o" "judge" 1 1 30 true in
  let st1 := (record init call 1).1 in
  let r := (record init call 1).2 in
  let st2 := setattr st1 r (set_prompt_tokens 100) in
  Forall total_is_sum (snapshot st1)
  /\ exists stored,
       snapshot st2 = [stored]
       /\ CallRecord.total_tokens stored = 2%Z
       /\ CallRecord.prompt_tokens stored = 100%Z
       /\ CallRecord.completion_tokens stored = 1%Z
       /\ ~ total_is_sum stored.
Proof.
  cbv zeta. split.
  - repeat constructor.
  - eexists. split; [vm_compute; reflexivity |].
    repeat split. unfold total_is_sum. simpl. lia.
Qed.

(** C2, on the code: the object returned by [record] is the ledger's own.
    After [r = record(prompt_tokens=1, completion_tokens=1, ...)] on a fresh
    tracker, the assignment [r.prompt_tokens = 100] changes what
    [session_summary] reports. *)
Lemma returned_record_is_ledger_object :
  let call := sample_args "gpt-4o" "judge" 1 1 30 true in
  let st1 := (record init call 1).1 in
  let r := (record init call 1).2 in
  let st2 := setattr st1 r (set_prompt_tokens 100) in
  _records st1 = [r]
  /\ CostSummary.total_prompt_tokens (session_summary st1) = 1%Z
  /\ CostSummary.total_prompt_tokens (session_summary st2) = 100%Z
  /\ CostSummary.total_tokens (session_summary st2) = 2%Z.
Proof. vm_compute. repeat split. Qed.

(** C7: a query that no record matches returns the all-zero result: each of
    the four summaries is [CostSummary] with every field 0,
    [agent_observability] for an agent without records is the snapshot with
    only the name set; [agent_observability] never divides by zero, for any
    agent; and after [reset] the session summary is all zero. *)
Theorem empty_queries (st : Store) :
  (forall cid,
     (forall r, r ∈ snapshot st -> CallRecord.conversation_id r <> cid) ->
     conversation_summary st cid = CostSummary.Build 0 0 0 0 0 0 0 0)
  /\ (forall p,
        (forall r, r ∈ snapshot st -> CallRecord.provider r <> p) ->
        provider_summary st p = CostSummary.Build 0 0 0 0 0 0 0 0)
  /\ (forall c,
        (forall r, r ∈ snapshot st -> CallRecord.caller r <> c) ->
        caller_summary st c = CostSummary.Build 0 0 0 0 0 0 0 0)
  /\ (snapshot st = [] ->
      session_summary st = CostSummary.Build 0 0 0 0 0 0 0 0)
  /\ (forall name,
        (forall r, r ∈ snapshot st -> CallRecord.caller r <> name) ->
        agent_observability st name
        = Some (AgentObservability.Build name 0 0 0 0 0 0 0 0 0))
  /\ (forall name, exists o, agent_observability st name = Some o)
  /\ session_summary (reset st) = CostSummary.Build 0 0 0 0 0 0 0 0.
Proof.
  repeat split.
  - intros cid H. unfold conversation_summary. now rewrite filter_none.
  - intros p H. unfold provider_summary. now rewrite filter_none.
  - intros c H. unfold caller_summary. now rewrite filter_none.
  - intros H. unfold session_summary. now rewrite H.
  - intros name H. unfold agent_observability. now rewrite filter_none.
  - intros name. apply agent_observability_returns.
Qed.

Lemma empty_queries_witness :
  caller_summary sample_store "nonexistent" = CostSummary.Build 0 0 0 0 0 0 0 0
  /\ agent_observability sample_store "nonexistent"
     = Some (AgentObservability.Build "nonexistent" 0 0 0 0 0 0 0 0 0)
  /\ session_summary (reset sample_store) = CostSummary.Build 0 0 0 0 0 0 0 0.
Proof.
  destruct (empty_queries sample_store) as (_ & _ & Hc & _ & Ho & _ & Hr).
  assert (Hno : forall r, r ∈ snapshot sample_store ->
                  CallRecord.caller r <> "nonexistent"%string).
  { intros r Hr'. vm_compute in Hr'.
    repeat (apply elem_of_cons in Hr' as [-> | Hr']);
      [ .. | apply elem_of_nil in Hr'; contradiction ]; discriminate. }
  split; [exact (Hc _ Hno) | split; [exact (Ho _ Hno) | exact Hr]].
Defined.
(** C3: on a non-empty list of N values [_percentile] returns the value at
    index clamp(floor(N*P/100), 0, N-1), which is a position of the list;
    for [10, 20, 30, 40, 50] the p50 is 30 and the p95 is 50, and
    [agent_observability] reports these for an agent with these five
    durations. *)
Theorem percentile_nearest_rank :
  (forall (values : list Q) (pct : Z),
     values <> [] ->
     percentile_index (len values) pct = nearest_rank_index (len values) pct
     /\ (0 <= nearest_rank_index (len values) pct < len values)%Z
     /\ values !! Z.to_nat (nearest_rank_index (len values) pct)
        = Some (_percentile values pct))
  /\ _percentile [10; 20; 30; 40; 50] 50 = 30
  /\ _percentile [10; 20; 30; 40; 50] 95 = 50
  /\ AgentObservability.p50_latency_ms <$> agent_observability five_calls "agent"
     = Some 30
  /\ AgentObservability.p95_latency_ms <$> agent_observability five_calls "agent"
     = Some 50.
Proof.
  split; [| vm_compute; repeat split].
  intros values pct Hne.
  pose proof (len_pos _ Hne) as Hn.
  rewrite <- (percentile_index_floor _ pct Hn).
  split; [reflexivity |].
  split; [now apply percentile_index_range | now apply percentile_lookup].
Qed.

Lemma percentile_nearest_rank_witness :
  nearest_rank_index 3 95 = 2%Z
  /\ [5; 7; 9] !! 2%nat = Some (_percentile [5; 7; 9] 95).
Proof.
  destruct percentile_nearest_rank as [Hgen _].
  destruct (Hgen [5; 7; 9] 95%Z) as (_ & _ & Hget).
  - discriminate.
  - split; [reflexivity | exact Hget].
Defined.

(** C8: the snapshot of any agent satisfies p50 <= p95 <= max, where max is
    one of the agent's recorded durations and none of them exceeds it. *)
Theorem percentiles_ordered (st : Store) (name : string) :
  exists o,
    agent_observability st name = Some o
    /\ AgentObservability.p50_latency_ms o <= AgentObservability.p95_latency_ms o
    /\ AgentObservability.p95_latency_ms o <= AgentObservability.max_latency_ms o
    /\ (forall r, r ∈ snapshot st -> CallRecord.caller r = name ->
          CallRecord.duration_ms r <= AgentObservability.max_latency_ms o
          /\ exists r', r' ∈ snapshot st /\ CallRecord.caller r' = name
               /\ CallRecord.duration_ms r'
                  = AgentObservability.max_latency_ms o).
Proof.
  destruct (filter (fun r => CallRecord.caller r = name) (snapshot st))
    as [|r0 rs] eqn:E.
  - exists (AgentObservability.default name). split.
    { unfold agent_observability. now rewrite E. }
    simpl. split; [apply Qle_refl | split; [apply Qle_refl |]].
    intros r Hr Hc. exfalso.
    assert (Hin : r ∈ filter (fun r => CallRecord.caller r = name)
                        (snapshot st)).
    { apply list_elem_of_filter. now split. }
    rewrite E in Hin. now apply elem_of_nil in Hin.
  - eexists. split; [apply (agent_observability_nonempty _ _ _ _ E) |].
    cbn [AgentObservability.p50_latency_ms AgentObservability.p95_latency_ms
         AgentObservability.max_latency_ms].
    set (durations := sorted (map CallRecord.duration_ms (r0 :: rs))).
    assert (Hperm : durations ≡ₚ map CallRecord.duration_ms (r0 :: rs))
      by apply sorted_perm.
    assert (Hne : durations <> []).
    { intros H0. rewrite H0 in Hperm. apply Permutation_nil_l in Hperm.
      discriminate. }
    assert (Hasc : StronglySorted Qle durations) by apply sorted_ascending.
    pose proof (len_pos _ Hne) as Hn.
    pose proof (percentile_lookup durations 50 Hne) as H50.
    pose proof (percentile_lookup durations 95 Hne) as H95.
    pose proof (percentile_index_mono (len durations) 50 95 Hn ltac:(lia)) as Hm.
    pose proof (percentile_index_range (len durations) 50 Hn) as Hr50.
    destruct durations as [|d ds] eqn:Ed; [congruence |].
    destruct (max_of_spec ds d) as [Hmax_in Hmax].
    split; [| split].
    + eapply ascending_lookup; [exact Hasc | exact H50 | exact H95 | lia].
    + apply Hmax. eapply list_elem_of_lookup_2. exact H95.
    + intros r Hr Hc.
      assert (Hin : r ∈ r0 :: rs).
      { rewrite <- E. apply list_elem_of_filter. now split. }
      split.
      * apply Hmax. rewrite Hperm. now apply list_elem_of_fmap_2.
      * rewrite Hperm in Hmax_in.
        apply list_elem_of_fmap in Hmax_in as (r' & Heq & Hr').
        rewrite <- E in Hr'. apply list_elem_of_filter in Hr' as [Hc' Hs'].
        exists r'. now repeat split.
Qed.

Lemma percentiles_ordered_witness :
  exists o,
    agent_observability five_calls "agent" = Some o
    /\ CallRecord.duration_ms (sample_args_record "gpt-4o" "agent" 10 10 50 3)
       <= AgentObservability.max_latency_ms o.
Proof.
  destruct (percentiles_ordered five_calls "agent") as (o & Ho & _ & _ & H).
  exists o. split; [exact Ho |].
  refine (proj1 (H _ _ _)).
  - unfold sample_args_record. vm_compute.
    do 2 apply list_elem_of_further. apply list_elem_of_here.
  - reflexivity.
Defined.

(** ** Summaries by caller *)

Ltac summary_fields :=
  unfold CostSummary.equiv, CostSummary.add, aggregate_step in *; simpl in *.

Lemma equiv_refl (a : CostSummary.t) : CostSummary.equiv a a.
Proof. summary_fields. repeat split; reflexivity. Qed.

Lemma equiv_trans (a b c : CostSummary.t) :
  CostSummary.equiv a b -> CostSummary.equiv b c -> CostSummary.equiv a c.
Proof.
  summary_fields.
  intros (?&?&?&?&?&?&?&?) (?&?&?&?&?&?&?&?).
  repeat split; try congruence; etransitivity; eassumption.
Qed.

(** Counting a record in one of two summands counts it in the sum. *)
Lemma equiv_sym (a b : CostSummary.t) :
  CostSummary.equiv a b -> CostSummary.equiv b a.
Proof.
  summary_fields. intros (?&?&?&?&?&?&?&?).
  repeat split; try congruence; symmetry; assumption.
Qed.

Lemma add_empty_l (a : CostSummary.t) :
  CostSummary.equiv (CostSummary.add CostSummary.empty a) a.
Proof. summary_fields. repeat split; try lia; lra. Qed.

Lemma step_equiv (a b : CostSummary.t) (r : CallRecord.t) :
  CostSummary.equiv a b ->
  CostSummary.equiv (aggregate_step a r) (aggregate_step b r).
Proof.
  summary_fields. intros (?&?&?&?&?&?&?&?).
  destruct (CallRecord.success r); repeat split; try congruence; lra.
Qed.

Lemma step_add_l (a b : CostSummary.t) (r : CallRecord.t) :
  CostSummary.equiv (CostSummary.add (aggregate_step a r) b)
    (aggregate_step (CostSummary.add a b) r).
Proof.
  summary_fields. destruct (CallRecord.success r);
    repeat split; try lia; lra.
Qed.

Lemma step_add_r (a b : CostSummary.t) (r : CallRecord.t) :
  CostSummary.equiv (CostSummary.add a (aggregate_step b r))
    (aggregate_step (CostSummary.add a b) r).
Proof.
  summary_fields. destruct (CallRecord.success r);
    repeat split; try lia; lra.
Qed.

Lemma add_equiv_r (a b b' : CostSummary.t) :
  CostSummary.equiv b b' ->
  CostSummary.equiv (CostSummary.add a b) (CostSummary.add a b').
Proof.
  summary_fields. intros (?&?&?&?&?&?&?&?).
  repeat split; try congruence; lra.
Qed.

Lemma aggregate_snoc (l : list CallRecord.t) (r : CallRecord.t) :
  _aggregate (l ++ [r]) = aggregate_step (_aggregate l) r.
Proof. unfold _aggregate. now rewrite fold_left_app. Qed.

Lemma aggregate_filter_snoc (l : list CallRecord.t) (r : CallRecord.t)
    (c : string) :
  _aggregate (filter (fun x => CallRecord.caller x = c) (l ++ [r]))
  = if decide (CallRecord.caller r = c)
    then aggregate_step
           (_aggregate (filter (fun x => CallRecord.caller x = c) l)) r
    else _aggregate (filter (fun x => CallRecord.caller x = c) l).
Proof.
  rewrite filter_app. destruct (decide (CallRecord.caller r = c)) as [Hc | Hc].
  - rewrite (filter_cons_True _ r []) by exact Hc. apply aggregate_snoc.
  - rewrite (filter_cons_False _ r []) by exact Hc. now rewrite app_nil_r.
Qed.

(** Adding a record to the summary of its caller adds it to the sum over a
    duplicate-free list of callers exactly when the caller is listed. *)
Lemma sum_summaries_bump (f : string -> CostSummary.t) (r : CallRecord.t)
    (c0 : string) (cs : list string) :
  NoDup cs ->
  CostSummary.equiv
    (sum_summaries
       (map (fun c => if decide (c0 = c) then aggregate_step (f c) r else f c)
          cs))
    (if decide (c0 ∈ cs)
     then aggregate_step (sum_summaries (map f cs)) r
     else sum_summaries (map f cs)).
Proof.
  induction 1 as [|c cs Hnotin Hnd IH].
  - apply equiv_refl.
  - cbn [map sum_summaries fold_right].
    fold (sum_summaries (map f cs)).
    fold (sum_summaries
            (map (fun c => if decide (c0 = c)
                           then aggregate_step (f c) r else f c) cs)).
    destruct (decide (c0 = c)) as [-> | Hne].
    + rewrite decide_True by left.
      destruct (decide (c ∈ cs)) as [Hin | _]; [contradiction |].
      eapply equiv_trans; [apply add_equiv_r, IH | apply step_add_l].
    + destruct (decide (c0 ∈ cs)) as [Hin | Hnin].
      * rewrite decide_True by now right.
        eapply equiv_trans; [apply add_equiv_r, IH | apply step_add_r].
      * rewrite decide_False.
        { apply add_equiv_r, IH. }
        intros Hin. apply elem_of_cons in Hin as [? | ?]; contradiction.
Qed.

Lemma aggregate_by_caller (l : list CallRecord.t) (cs : list string) :
  NoDup cs ->
  (forall r, r ∈ l -> CallRecord.caller r ∈ cs) ->
  CostSummary.equiv (_aggregate l)
    (sum_summaries
       (map (fun c => _aggregate (filter (fun x => CallRecord.caller x = c) l))
          cs)).
Proof.
  intros Hnd. induction l as [|r l IH] using rev_ind; intros Hcover.
  - clear Hcover Hnd. induction cs as [|c cs IHcs]; [apply equiv_refl |].
    cbn [map sum_summaries fold_right].
    eapply equiv_trans; [exact IHcs | apply equiv_sym, add_empty_l].
  - rewrite aggregate_snoc.
    rewrite (map_ext _ _ (aggregate_filter_snoc l r)).
    apply equiv_sym.
    eapply equiv_trans; [apply (sum_summaries_bump _ r _ cs Hnd) |].
    rewrite decide_True.
    + apply step_equiv, equiv_sym, IH.
      intros x Hx. apply Hcover, elem_of_app. now left.
    + apply Hcover, elem_of_app. right. left.
Qed.

(** C9: the session summary is the field-wise sum of the caller summaries
    over the set of callers present in the ledger: the integer fields are
    equal and the two rational fields denote the same numbers. *)
Theorem session_decomposes_by_caller (st : Store) :
  CostSummary.equiv (session_summary st)
    (sum_summaries (map (caller_summary st) (elements (agent_names st)))).
Proof.
  unfold session_summary, caller_summary.
  apply aggregate_by_caller.
  - apply NoDup_elements.
  - intros r Hr. apply elem_of_elements. unfold agent_names.
    apply elem_of_list_to_set. now apply list_elem_of_fmap_2.
Qed.

(** ** Threads: what every interleaving preserves *)

Section ThreadFacts.
Import Threads.
Local Open Scope nat_scope.

(** Replacing the thread at [t] touches that one position. *)
Lemma thread_frame {A} (l : list A) (t : nat) (x : A) :
  l !! t = Some x ->
  exists l1 l2, l = l1 ++ x :: l2 /\ forall y, <[t:=y]> l = l1 ++ y :: l2.
Proof.
  intros Ht. exists (take t l), (drop (S t) l). split.
  - symmetry. now apply take_drop_middle.
  - intros y. apply insert_take_drop. now apply lookup_lt_Some in Ht.
Qed.

Lemma args_of_new_record (a : RecordArgs.t) (now : Q) :
  args_of (new_record a now) = a.
Proof. now destruct a. Qed.

Lemma sched_step_cases (c c' : Config) (t : nat) (now : Q) :
  sched_step c t now = Some c' ->
  exists l1 l2 pend p,
    threads c = l1 ++ mkThread pend p :: l2
    /\ match p with
       | Outside =>
           exists a rest, pend = a :: rest
             /\ c' = mkConfig
                       (mkStore (heap (store c) ++ [new_record a now])
                          (_records (store c)))
                       (locked c)
                       (l1 ++ mkThread rest (Built (length (heap (store c))))
                           :: l2)
       | Built addr =>
           locked c = false
           /\ c' = mkConfig (store c) true
                     (l1 ++ mkThread pend (Holding addr) :: l2)
       | Holding addr =>
           c' = mkConfig (append (store c) addr) (locked c)
                  (l1 ++ mkThread pend (Appended addr) :: l2)
       | Appended addr =>
           c' = mkConfig (store c) false (l1 ++ mkThread pend Outside :: l2)
       end.
Proof.
  unfold sched_step. destruct (threads c !! t) as [[pend p]|] eqn:Ht;
    [| discriminate].
  destruct (thread_frame _ _ _ Ht) as (l1 & l2 & Hl & Hins).
  intros Hs. exists l1, l2, pend, p. split; [exact Hl |].
  unfold thread_step in Hs. simpl in Hs. destruct p as [|addr|addr|addr].
  - destruct pend as [|a rest]; [discriminate |]. simpl in Hs.
    injection Hs as <-. exists a, rest. now rewrite Hins.
  - destruct (locked c); [discriminate |]. injection Hs as <-.
    now rewrite Hins.
  - injection Hs as <-. now rewrite Hins.
  - injection Hs as <-. now rewrite Hins.
Qed.

Lemma step_preserves (all : list RecordArgs.t) (c c' : Config) :
  step c c' -> thread_inv all c -> thread_inv all c'.
Proof.
  intros (t & now & Hs) (Hcalls & Hobj & Hlock).
  apply sched_step_cases in Hs as (l1 & l2 & pend & p & Hl & Hs).
  unfold thread_inv, calls_conserved, objects_accounted, lock_discipline in *.
  destruct c as [[h recs] lk ths]. simpl in *. subst ths.
  rewrite map_app, concat_app in Hcalls, Hobj.
  rewrite sum_list_with_app in Hlock. simpl in Hcalls, Hobj, Hlock.
  destruct p as [|addr|addr|addr].
  - destruct Hs as (a & rest & -> & ->). simpl.
    rewrite !map_app, !concat_app, sum_list_with_app, length_app, seq_app.
    simpl. rewrite args_of_new_record. simpl in *.
    split; [| split].
    + rewrite <- Hcalls. solve_Permutation.
    + rewrite <- Hobj. solve_Permutation.
    + exact Hlock.
  - destruct Hs as (Hlk & ->). subst lk. simpl.
    rewrite !map_app, !concat_app, sum_list_with_app. simpl in *.
    split; [exact Hcalls | split; [exact Hobj | lia]].
  - subst c'. simpl.
    rewrite !map_app, !concat_app, sum_list_with_app. simpl in *.
    split; [exact Hcalls | split; [| exact Hlock]].
    rewrite <- Hobj. solve_Permutation.
  - subst c'. simpl.
    rewrite !map_app, !concat_app, sum_list_with_app. simpl in *.
    split; [exact Hcalls | split; [exact Hobj |]].
    destruct lk; lia.
Qed.

Lemma step_counts_down (c c' : Config) :
  step c c' -> steps_left c = S (steps_left c').
Proof.
  intros (t & now & Hs).
  apply sched_step_cases in Hs as (l1 & l2 & pend & p & Hl & Hs).
  unfold steps_left. rewrite Hl, sum_list_with_app.
  destruct p as [|addr|addr|addr].
  - destruct Hs as (a & rest & -> & ->). simpl.
    rewrite sum_list_with_app. unfold todo. simpl. lia.
  - destruct Hs as (_ & ->). simpl.
    rewrite sum_list_with_app. unfold todo. simpl. lia.
  - subst c'. simpl. rewrite sum_list_with_app. unfold todo. simpl. lia.
  - subst c'. simpl. rewrite sum_list_with_app. unfold todo. simpl. lia.
Qed.

Lemma spawn_inv (programs : list (list RecordArgs.t)) :
  thread_inv (concat programs) (spawn programs).
Proof.
  unfold thread_inv, calls_conserved, objects_accounted, lock_discipline.
  simpl. rewrite !map_map. simpl. split; [| split].
  - now rewrite map_id.
  - induction programs as [|p ps IH]; [reflexivity | exact IH].
  - induction programs as [|p ps IH]; [reflexivity | exact IH].
Qed.

Lemma spawn_steps_left (M : nat) (programs : list (list RecordArgs.t)) :
  Forall (fun p => length p = M) programs ->
  steps_left (spawn programs) = 4 * length programs * M.
Proof.
  unfold steps_left. simpl.
  induction 1 as [|p ps Hp _ IH]; [reflexivity |].
  simpl in *. rewrite IH. unfold todo. simpl. lia.
Qed.

Lemma nsteps_inv (all : list RecordArgs.t) (n : nat) (c c' : Config) :
  nsteps step n c c' ->
  thread_inv all c ->
  thread_inv all c' /\ n + steps_left c' = steps_left c.
Proof.
  induction 1 as [c | n c c1 c2 Hstep _ IH]; intros Hinv; [now split |].
  destruct (IH (step_preserves _ _ _ Hstep Hinv)) as [Hinv' Hn].
  split; [exact Hinv' |].
  rewrite (step_counts_down _ _ Hstep). lia.
Qed.

Lemma run_nsteps (schedule : list (nat * Q)) (c c' : Config) :
  run schedule c = Some c' -> nsteps step (length schedule) c c'.
Proof.
  revert c. induction schedule as [|[t clk] rest IH]; intros c Hrun.
  - injection Hrun as <-. constructor.
  - simpl in Hrun. destruct (sched_step c t clk) as [c1|] eqn:Hs;
      [| discriminate].
    econstructor; [exists t, clk; exact Hs | apply IH; exact Hrun].
Qed.

Lemma thread_done_spec (th : Thread) :
  thread_done th = true <-> todo th = 0%nat.
Proof.
  destruct th as [pend p]. unfold thread_done, todo. simpl.
  destruct p, pend; simpl; split; intros; try reflexivity;
    try discriminate; lia.
Qed.

Lemma finished_spec (c : Config) :
  finished c = true <-> steps_left c = 0%nat.
Proof.
  unfold finished, steps_left.
  induction (threads c) as [|th ths IH]; simpl; [tauto |].
  rewrite andb_true_iff, IH, thread_done_spec. lia.
Qed.

Lemma finished_nothing_pending (c : Config) :
  finished c = true ->
  concat (map pending (threads c)) = []
  /\ concat (map inflight (threads c)) = []
  /\ sum_list_with critical (threads c) = 0.
Proof.
  unfold finished. induction (threads c) as [|[pend p] ths IH]; simpl;
    [tauto |].
  rewrite andb_true_iff. intros [Hth Hrest].
  destruct (IH Hrest) as (-> & -> & ->).
  unfold thread_done in Hth. simpl in Hth.
  destruct p, pend; try discriminate. now repeat split.
Qed.

(** A thread that is not done can move unless it waits for a lock that
    another thread holds, and that thread can move. *)
Lemma progress (all : list RecordArgs.t) (c : Config) :
  thread_inv all c -> finished c = false -> exists c', step c c'.
Proof.
  intros (_ & _ & Hlock) Hnf. unfold lock_discipline in Hlock.
  assert (Hex : exists t th, threads c !! t = Some th /\ thread_done th = false).
  { unfold finished in Hnf. clear Hlock.
    induction (threads c) as [|th ths IH]; [discriminate |].
    simpl in Hnf. destruct (thread_done th) eqn:E.
    - destruct (IH Hnf) as (t & th' & Ht & Hd). now exists (S t), th'.
    - now exists 0%nat, th. }
  destruct Hex as (t & [pend p] & Ht & Hd).
  assert (Hgo : forall t' pend' addr,
            threads c !! t' = Some (mkThread pend' (Holding addr))
            \/ threads c !! t' = Some (mkThread pend' (Appended addr)) ->
            exists c', step c c').
  { intros t' pend' addr [Ht' | Ht']; eexists; exists t', 0%Q;
      unfold sched_step; rewrite Ht'; reflexivity. }
  destruct p as [|addr|addr|addr].
  - destruct pend as [|a rest]; [discriminate |].
    eexists. exists t, 0%Q. unfold sched_step. rewrite Ht. reflexivity.
  - destruct (locked c) eqn:Hlk.
    + assert (Hcrit : exists t' th', threads c !! t' = Some th'
                                     /\ critical th' = 1%nat).
      { clear Ht Hgo Hnf. revert Hlock.
        induction (threads c) as [|th ths IH]; simpl; [discriminate |].
        intros Hsum. destruct (critical th) eqn:E.
        - destruct (IH Hsum) as (t' & th' & Ht' & Hc).
          now exists (S t'), th'.
        - exists 0%nat, th. split; [reflexivity |].
          rewrite E. unfold critical in E. destruct (pc th); congruence. }
      destruct Hcrit as (t' & [pend' p'] & Ht' & Hc).
      unfold critical in Hc. simpl in Hc.
      destruct p' as [|a'|a'|a']; try discriminate;
        apply (Hgo t' pend' a'); auto.
    + eexists. exists t, 0%Q. unfold sched_step, thread_step.
      rewrite Ht. simpl. rewrite Hlk. reflexivity.
  - apply (Hgo t pend addr). auto.
  - apply (Hgo t pend addr). auto.
Qed.

Lemma aggregate_total_calls (l : list CallRecord.t) :
  CostSummary.total_calls (_aggregate l) = len l.
Proof.
  induction l as [|r l IH] using rev_ind; [reflexivity |].
  rewrite aggregate_snoc. simpl. rewrite IH. unfold len.
  rewrite length_app. simpl. lia.
Qed.

Lemma omap_lookup_all (h : list CallRecord.t) :
  omap (fun a => h !! a) (seq 0 (length h)) = h.
Proof.
  induction h as [|r h IH] using rev_ind; [reflexivity |].
  rewrite length_app, seq_app, omap_app. simpl.
  rewrite omap_lookup_grow.
  - rewrite IH. f_equal. csimpl.
    rewrite lookup_app_r by lia. now rewrite Nat.sub_diag.
  - apply Forall_seq. intros; lia.
Qed.

(** When all threads are done the ledger holds every object, once. *)
Lemma finished_ledger (all : list RecordArgs.t) (c : Config) :
  thread_inv all c -> finished c = true ->
  locked c = false
  /\ NoDup (_records (store c))
  /\ map args_of (snapshot (store c)) ≡ₚ all.
Proof.
  intros (Hcalls & Hobj & Hlock) Hfin.
  unfold calls_conserved, objects_accounted, lock_discipline in *.
  destruct (finished_nothing_pending c Hfin) as (Hp & Hi & Hk).
  rewrite Hp, app_nil_r in Hcalls. rewrite Hi, app_nil_r in Hobj.
  split; [| split].
  - rewrite Hk in Hlock. destruct (locked c); [discriminate | reflexivity].
  - rewrite Hobj. apply NoDup_seq.
  - unfold snapshot. rewrite Hobj, omap_lookup_all. exact Hcalls.
Qed.

End ThreadFacts.

(** C10: N threads that each call [record] M times on a fresh tracker, run
    under any interleaving.  At every point at most one thread is between
    acquiring and releasing the lock, and while some thread is not done
    some thread can be scheduled; every run ends after 4*N*M steps; and when
    all threads are done the lock is free, [session_summary] reports
    [total_calls = N*M], the ledger holds no object twice, and its records
    are those of the calls made, each once. *)
Theorem concurrent_records_all_counted (N M : nat)
    (programs : list (list RecordArgs.t)) (n : nat) (c : Threads.Config) :
  length programs = N ->
  Forall (fun p => length p = M) programs ->
  nsteps Threads.step n (Threads.spawn programs) c ->
  lock_discipline c
  /\ (n <= 4 * N * M)%nat
  /\ (Threads.finished c = true <-> n = (4 * N * M)%nat)
  /\ (Threads.finished c = false -> exists c', Threads.step c c')
  /\ (Threads.finished c = true ->
      CostSummary.total_calls (session_summary (Threads.store c))
      = Z.of_nat (N * M)
      /\ Threads.locked c = false
      /\ NoDup (_records (Threads.store c))
      /\ map args_of (snapshot (Threads.store c)) ≡ₚ concat programs).
Proof.
  intros HN HM Hrun.
  destruct (nsteps_inv _ _ _ _ Hrun (spawn_inv programs)) as [Hinv Hn].
  rewrite (spawn_steps_left M programs HM), HN in Hn.
  split; [apply Hinv |].
  split; [lia |].
  split; [rewrite finished_spec; lia |].
  split; [now apply (progress (concat programs)) |].
  intros Hfin.
  destruct (finished_ledger _ _ Hinv Hfin) as (Hfree & Hnd & Hperm).
  split; [| now repeat split].
  unfold session_summary. rewrite aggregate_total_calls. unfold len.
  rewrite <- (length_map args_of), Hperm. f_equal.
  subst N. clear -HM. induction HM as [|p ps Hp _ IH]; [reflexivity |].
  simpl. rewrite length_app, IH, Hp. lia.
Qed.

Lemma concurrent_records_all_counted_witness :
  exists c,
    Threads.run two_schedule (Threads.spawn two_programs) = Some c
    /\ Threads.finished c = true
    /\ CostSummary.total_calls (session_summary (Threads.store c)) = 2%Z.
Proof.
  eexists. split; [vm_compute; reflexivity |].
  split; [reflexivity |].
  refine (proj1 (proj2 (proj2 (proj2 (proj2
    (concurrent_records_all_counted 2 1 two_programs 8 _ _ _ _)))) _)).
  - reflexivity.
  - repeat constructor.
  - apply (run_nsteps two_schedule). reflexivity.
  - reflexivity.
Defined.

(** ** More about aggregation *)

Lemma aggregate_fields (l : list CallRecord.t) :
  CostSummary.total_calls (_aggregate l) = len l
  /\ CostSummary.successful_calls (_aggregate l)
     = len (filter (fun r => CallRecord.success r = true) l)
  /\ CostSummary.failed_calls (_aggregate l)
     = len (filter (fun r => CallRecord.success r = false) l)
  /\ CostSummary.total_prompt_tokens (_aggregate l)
     = sumZ (map CallRecord.prompt_tokens l)
  /\ CostSummary.total_completion_tokens (_aggregate l)
     = sumZ (map CallRecord.completion_tokens l)
  /\ CostSummary.total_tokens (_aggregate l)
     = sumZ (map CallRecord.total_tokens l)
  /\ CostSummary.total_cost_usd (_aggregate l)
     = sum (map CallRecord.estimated_cost_usd l)
  /\ CostSummary.total_duration_ms (_aggregate l)
     = sum (map CallRecord.duration_ms l).
Proof.
  induction l as [|r l IH] using rev_ind; [repeat split |].
  destruct IH as (H1 & H2 & H3 & H4 & H5 & H6 & H7 & H8).
  rewrite aggregate_snoc. unfold aggregate_step. simpl.
  rewrite H1, H2, H3, H4, H5, H6, H7, H8.
  rewrite !filter_app, !map_app. unfold sumZ, sum, len.
  rewrite !fold_left_app, !length_app. simpl.
  destruct (CallRecord.success r) eqn:E.
  - rewrite (filter_cons_True _ r []) by exact E.
    rewrite (filter_cons_False _ r []) by congruence.
    simpl. repeat split; lia.
  - rewrite (filter_cons_False _ r []) by congruence.
    rewrite (filter_cons_True _ r []) by exact E.
    simpl. repeat split; lia.
Qed.

(** X1: whatever list [_aggregate] is given, [total_calls] is the number of
    records, [successful_calls] and [failed_calls] count the records with
    and without [success], and the two add up to [total_calls]. *)
Theorem aggregate_counts (records : list CallRecord.t) :
  CostSummary.total_calls (_aggregate records) = len records
  /\ CostSummary.successful_calls (_aggregate records)
     = len (filter (fun r => CallRecord.success r = true) records)
  /\ CostSummary.failed_calls (_aggregate records)
     = len (filter (fun r => CallRecord.success r = false) records)
  /\ (CostSummary.successful_calls (_aggregate records)
      + CostSummary.failed_calls (_aggregate records))%Z
     = CostSummary.total_calls (_aggregate records).
Proof.
  destruct (aggregate_fields records) as (H1 & H2 & H3 & _).
  repeat split; try assumption.
  rewrite H1, H2, H3. unfold len. clear.
  induction records as [|r l IH]; [reflexivity |].
  destruct (CallRecord.success r) eqn:E.
  - rewrite (filter_cons_True _ r l) by exact E.
    rewrite (filter_cons_False _ r l) by congruence.
    simpl length. lia.
  - rewrite (filter_cons_False _ r l) by congruence.
    rewrite (filter_cons_True _ r l) by exact E.
    simpl length. lia.
Qed.

Lemma sumZ_snoc (l : list Z) (x : Z) : sumZ (l ++ [x]) = (sumZ l + x)%Z.
Proof. unfold sumZ. now rewrite fold_left_app. Qed.

Lemma aggregate_tokens_add_up (l : list CallRecord.t) :
  Forall total_is_sum l ->
  CostSummary.total_tokens (_aggregate l)
  = (CostSummary.total_prompt_tokens (_aggregate l)
     + CostSummary.total_completion_tokens (_aggregate l))%Z.
Proof.
  destruct (aggregate_fields l) as (_ & _ & _ & -> & -> & -> & _).
  induction l as [|r l IH] using rev_ind; intros Hall; [reflexivity |].
  apply Forall_app in Hall as [Hl Hr]. inversion Hr as [|? ? Hrr _]; subst.
  rewrite !map_app. cbn [map]. rewrite !sumZ_snoc, (IH Hl), Hrr. lia.
Qed.

Lemma reachable_selection_totals st (P : CallRecord.t -> Prop)
    `{!forall r, Decision (P r)} :
  reachable st -> Forall total_is_sum (filter P (snapshot st)).
Proof.
  intros Hreach. apply Forall_forall. intros r Hr.
  apply list_elem_of_filter in Hr as [_ Hr]. apply snapshot_subset in Hr.
  pose proof (reachable_heap_totals st Hreach) as Hall.
  rewrite Forall_forall in Hall. now apply Hall.
Qed.

(** X2: on a tracker driven through [record] and [reset], every summary
    (session, conversation, provider, caller) has
    [total_tokens = total_prompt_tokens + total_completion_tokens]. *)
Theorem summary_tokens_add_up (st : Store) :
  reachable st ->
  CostSummary.total_tokens (session_summary st)
  = (CostSummary.total_prompt_tokens (session_summary st)
     + CostSummary.total_completion_tokens (session_summary st))%Z
  /\ (forall cid,
        CostSummary.total_tokens (conversation_summary st cid)
        = (CostSummary.total_prompt_tokens (conversation_summary st cid)
           + CostSummary.total_completion_tokens (conversation_summary st cid))%Z)
  /\ (forall p,
        CostSummary.total_tokens (provider_summary st p)
        = (CostSummary.total_prompt_tokens (provider_summary st p)
           + CostSummary.total_completion_tokens (provider_summary st p))%Z)
  /\ (forall c,
        CostSummary.total_tokens (caller_summary st c)
        = (CostSummary.total_prompt_tokens (caller_summary st c)
           + CostSummary.total_completion_tokens (caller_summary st c))%Z).
Proof.
  intros Hreach. repeat split; intros;
    apply aggregate_tokens_add_up;
    try (now apply reachable_selection_totals).
  apply Forall_forall. intros r Hr. apply snapshot_subset in Hr.
  pose proof (reachable_heap_totals st Hreach) as Hall.
  rewrite Forall_forall in Hall. now apply Hall.
Qed.

Lemma summary_tokens_add_up_witness :
  CostSummary.total_tokens (caller_summary sample_store "jd_agent")
  = (CostSummary.total_prompt_tokens (caller_summary sample_store "jd_agent")
     + CostSummary.total_completion_tokens
         (caller_summary sample_store "jd_agent"))%Z.
Proof.
  exact (proj2 (proj2 (proj2
           (summary_tokens_add_up sample_store sample_store_reachable)))
           "jd_agent"%string).
Defined.

(** ** Sequences of calls *)

Lemma wf_record_all st calls : wf st -> wf (record_all st calls).
Proof.
  revert st. induction calls as [|[a now] calls IH]; intros st Hwf;
    [exact Hwf |].
  change (record_all st ((a, now) :: calls))
    with (record_all (record st a now).1 calls).
  apply IH. now apply wf_record.
Qed.

Lemma snapshot_record_all st calls :
  wf st ->
  snapshot (record_all st calls)
  = snapshot st ++ map (fun call => new_record call.1 call.2) calls.
Proof.
  revert st. induction calls as [|[a now] calls IH]; intros st Hwf.
  - simpl. now rewrite app_nil_r.
  - change (record_all st ((a, now) :: calls))
      with (record_all (record st a now).1 calls).
    rewrite IH by now apply wf_record.
    rewrite snapshot_record by exact Hwf. now rewrite <- app_assoc.
Qed.

(** X3: the ledger is append-only and keeps the order of the calls: after
    a sequence of [record] calls the records read by the queries are the
    earlier ones, unchanged, followed by one record per call in call order;
    and after [reset] the same calls give what they give on a fresh
    tracker. *)
Theorem record_appends_in_order (st : Store)
    (calls : list (RecordArgs.t * Q)) :
  wf st ->
  snapshot (record_all st calls)
  = snapshot st ++ map (fun call => new_record call.1 call.2) calls
  /\ snapshot (record_all (reset st) calls) = snapshot (record_all init calls)
  /\ CostSummary.total_calls (session_summary (record_all (reset st) calls))
     = len calls.
Proof.
  intros Hwf. split; [now apply snapshot_record_all |].
  rewrite (snapshot_record_all (reset st)) by apply wf_reset.
  rewrite (snapshot_record_all init) by apply wf_init.
  split; [reflexivity |].
  unfold session_summary.
  rewrite (snapshot_record_all (reset st)) by apply wf_reset.
  destruct (aggregate_fields
              (snapshot (reset st)
               ++ map (fun call => new_record call.1 call.2) calls))
    as (-> & _).
  unfold len. now rewrite length_app, length_map.
Qed.

Lemma record_appends_in_order_witness :
  snapshot (record_all sample_store
              [(sample_args "gpt-4o" "judge" 7 3 20 true, 9)])
  = snapshot sample_store
    ++ [new_record (sample_args "gpt-4o" "judge" 7 3 20 true) 9].
Proof.
  refine (proj1 (record_appends_in_order sample_store
                   [(sample_args "gpt-4o" "judge" 7 3 20 true, 9)] _)).
  apply wf_reachable, sample_store_reachable.
Defined.

Lemma aggregate_filter_record st a now (P : CallRecord.t -> Prop)
    `{!forall r, Decision (P r)} :
  wf st ->
  _aggregate (filter P (snapshot (record st a now).1))
  = if decide (P (new_record a now))
    then aggregate_step (_aggregate (filter P (snapshot st)))
           (new_record a now)
    else _aggregate (filter P (snapshot st)).
Proof.
  intros Hwf. rewrite snapshot_record by exact Hwf. rewrite filter_app.
  destruct (decide (P (new_record a now))) as [Hp | Hp].
  - rewrite (filter_cons_True _ _ []) by exact Hp. apply aggregate_snoc.
  - rewrite (filter_cons_False _ _ []) by exact Hp. now rewrite app_nil_r.
Qed.

(** X4: a call of [record] adds its record to the session summary and to
    the summaries of its own conversation, provider and caller, and leaves
    the summary of every other conversation, provider and caller as it
    was. *)
Theorem record_updates_own_summaries (st : Store) (a : RecordArgs.t)
    (now : Q) :
  wf st ->
  let st' := (record st a now).1 in
  let r := new_record a now in
  session_summary st' = aggregate_step (session_summary st) r
  /\ (forall cid,
        conversation_summary st' cid
        = if decide (RecordArgs.conversation_id a = cid)
          then aggregate_step (conversation_summary st cid) r
          else conversation_summary st cid)
  /\ (forall p,
        provider_summary st' p
        = if decide (RecordArgs.provider a = p)
          then aggregate_step (provider_summary st p) r
          else provider_summary st p)
  /\ (forall c,
        caller_summary st' c
        = if decide (RecordArgs.caller a = c)
          then aggregate_step (caller_summary st c) r
          else caller_summary st c).
Proof.
  intros Hwf. cbv zeta. split; [| split; [| split]].
  - unfold session_summary. rewrite snapshot_record by exact Hwf.
    apply aggregate_snoc.
  - intros cid. unfold conversation_summary.
    now rewrite aggregate_filter_record.
  - intros p. unfold provider_summary. now rewrite aggregate_filter_record.
  - intros c. unfold caller_summary. now rewrite aggregate_filter_record.
Qed.

Lemma record_updates_own_summaries_witness :
  caller_summary
    (record sample_store (sample_args "gpt-4o" "judge" 7 3 20 true) 9).1
    "jd_agent"
  = caller_summary sample_store "jd_agent".
Proof.
  refine (proj2 (proj2 (proj2
            (record_updates_own_summaries sample_store
               (sample_args "gpt-4o" "judge" 7 3 20 true) 9 _)))
            "jd_agent"%string).
  apply wf_reachable, sample_store_reachable.
Defined.

(** ** Sums of rationals *)

Lemma fold_Qplus_shift (l : list Q) (a : Q) :
  fold_left Qplus l a == a + fold_left Qplus l 0.
Proof.
  revert a. induction l as [|x l IH]; intros a; simpl; [lra |].
  rewrite (IH (a + x)), (IH (0 + x)). lra.
Qed.

Lemma sum_cons (x : Q) (l : list Q) : sum (x :: l) == x + sum l.
Proof. unfold sum. simpl. rewrite fold_Qplus_shift. lra. Qed.

Lemma sum_perm (l k : list Q) : l ≡ₚ k -> sum l == sum k.
Proof.
  induction 1 as [| x l k _ IH | x y l | l k m _ IH1 _ IH2].
  - reflexivity.
  - rewrite !sum_cons, IH. reflexivity.
  - rewrite !sum_cons. lra.
  - now rewrite IH1.
Qed.

Lemma sum_nonneg (l : list Q) : (forall x, x ∈ l -> 0 <= x) -> 0 <= sum l.
Proof.
  induction l as [|x l IH]; intros Hall; [discriminate |].
  rewrite sum_cons.
  assert (0 <= x) by (apply Hall; left).
  assert (0 <= sum l) by (apply IH; intros y Hy; apply Hall; now right).
  lra.
Qed.

Lemma sum_zero (l : list Q) : (forall x, x ∈ l -> x == 0) -> sum l == 0.
Proof.
  induction l as [|x l IH]; intros Hall; [reflexivity |].
  rewrite sum_cons, (Hall x) by left.
  rewrite IH; [lra |]. intros y Hy. apply Hall. now right.
Qed.

Lemma sum_le_bound (l : list Q) (m : Q) :
  (forall x, x ∈ l -> x <= m) -> sum l <= inject_Z (len l) * m.
Proof.
  induction l as [|x l IH]; intros Hall.
  - unfold len, sum. cbn [length fold_left].
    change (inject_Z (Z.of_nat 0)) with 0. lra.
  - rewrite sum_cons.
    assert (Hx : x <= m) by (apply Hall; left).
    assert (Hl : sum l <= inject_Z (len l) * m).
    { apply IH. intros y Hy. apply Hall. now right. }
    unfold len in *. rewrite length_cons, Nat2Z.inj_succ.
    unfold Z.succ. rewrite inject_Z_plus. change (inject_Z 1) with 1. lra.
Qed.

(** ** Costs in the ledger *)

Lemma reachable_heap_costs st :
  reachable st -> Forall cost_is_frozen_estimate (heap st).
Proof.
  induction 1 as [| st a now _ IH | st _ IH]; simpl.
  - constructor.
  - apply Forall_app. split; [exact IH |]. repeat constructor.
  - exact IH.
Qed.

Lemma record_cost_nonneg (r : CallRecord.t) :
  cost_is_frozen_estimate r ->
  (0 <= CallRecord.prompt_tokens r)%Z ->
  (0 <= CallRecord.completion_tokens r)%Z ->
  0 <= CallRecord.estimated_cost_usd r.
Proof.
  unfold cost_is_frozen_estimate. intros -> Hp Hc.
  destruct (CallRecord.success r); [| apply Qle_refl].
  now apply estimate_over_nonneg; [apply default_pricing_nonneg | |].
Qed.

Lemma selection_cost_nonneg st (P : CallRecord.t -> Prop)
    `{!forall r, Decision (P r)} :
  reachable st ->
  (forall r, r ∈ snapshot st ->
     (0 <= CallRecord.prompt_tokens r)%Z
     /\ (0 <= CallRecord.completion_tokens r)%Z) ->
  0 <= CostSummary.total_cost_usd (_aggregate (filter P (snapshot st))).
Proof.
  intros Hreach Hnn.
  destruct (aggregate_fields (filter P (snapshot st)))
    as (_ & _ & _ & _ & _ & _ & -> & _).
  apply sum_nonneg. intros x Hx.
  apply list_elem_of_fmap in Hx as (r & -> & Hr).
  apply list_elem_of_filter in Hr as [_ Hr].
  destruct (Hnn r Hr) as [Hp Hc].
  apply record_cost_nonneg; try assumption.
  pose proof (reachable_heap_costs st Hreach) as Hall.
  rewrite Forall_forall in Hall. apply Hall. now apply snapshot_subset.
Qed.

(** X5: on a tracker driven through [record] and [reset], every record of
    the ledger carries the estimate made at its creation, or 0 if the call
    failed; a caller all of whose calls failed has total cost 0; and when no
    record has a negative token count, no summary has a negative total
    cost. *)
Theorem summary_costs (st : Store) :
  reachable st ->
  (forall r, r ∈ snapshot st ->
     CallRecord.estimated_cost_usd r
     = if CallRecord.success r
       then _estimate_cost (CallRecord.model r) (CallRecord.prompt_tokens r)
              (CallRecord.completion_tokens r)
       else 0)
  /\ (forall c,
        (forall r, r ∈ snapshot st -> CallRecord.caller r = c ->
           CallRecord.success r = false) ->
        CostSummary.total_cost_usd (caller_summary st c) == 0)
  /\ ((forall r, r ∈ snapshot st ->
         (0 <= CallRecord.prompt_tokens r)%Z
         /\ (0 <= CallRecord.completion_tokens r)%Z) ->
      0 <= CostSummary.total_cost_usd (session_summary st)
      /\ (forall cid,
            0 <= CostSummary.total_cost_usd (conversation_summary st cid))
      /\ (forall p, 0 <= CostSummary.total_cost_usd (provider_summary st p))
      /\ (forall c, 0 <= CostSummary.total_cost_usd (caller_summary st c))).
Proof.
  intros Hreach.
  assert (Hfrozen : forall r, r ∈ snapshot st -> cost_is_frozen_estimate r).
  { intros r Hr. pose proof (reachable_heap_costs st Hreach) as Hall.
    rewrite Forall_forall in Hall. apply Hall. now apply snapshot_subset. }
  split; [exact Hfrozen | split].
  - intros c Hfail. unfold caller_summary.
    destruct (aggregate_fields
                (filter (fun r => CallRecord.caller r = c) (snapshot st)))
      as (_ & _ & _ & _ & _ & _ & -> & _).
    apply sum_zero. intros x Hx.
    apply list_elem_of_fmap in Hx as (r & -> & Hr).
    apply list_elem_of_filter in Hr as [Hc Hr].
    rewrite (Hfrozen r Hr), (Hfail r Hr Hc). reflexivity.
  - intros Hnn. repeat split; intros;
      try (now apply selection_cost_nonneg).
    unfold session_summary.
    destruct (aggregate_fields (snapshot st))
      as (_ & _ & _ & _ & _ & _ & -> & _).
    apply sum_nonneg. intros x Hx.
    apply list_elem_of_fmap in Hx as (r & -> & Hr).
    destruct (Hnn r Hr) as [Hp Hc].
    apply record_cost_nonneg; auto.
Qed.

Lemma summary_costs_witness :
  0 <= CostSummary.total_cost_usd (caller_summary sample_store "jd_agent").
Proof.
  destruct (summary_costs sample_store sample_store_reachable)
    as (_ & _ & Hnn).
  refine (proj2 (proj2 (proj2 (Hnn _))) "jd_agent"%string).
  intros r Hr. vm_compute in Hr.
  repeat (apply elem_of_cons in Hr as [-> | Hr]);
    [ .. | apply elem_of_nil in Hr; contradiction ];
    split; discriminate.
Defined.

(** ** The observability snapshot and the caller summary *)

Lemma sumZ_ones {A} (l : list A) : sumZ (map (fun _ => 1%Z) l) = len l.
Proof.
  induction l as [|x l IH] using rev_ind; [reflexivity |].
  rewrite map_app. cbn [map]. rewrite sumZ_snoc, IH. unfold len.
  rewrite length_app. simpl. lia.
Qed.

Lemma len_filter_le {A} (P : A -> Prop) `{!forall x, Decision (P x)}
    (l : list A) :
  (0 <= len (filter P l) <= len l)%Z.
Proof. unfold len. pose proof (length_filter P l). lia. Qed.

(** X6: the snapshot of an agent agrees with [caller_summary] for the same
    name: the same number of calls, failed calls, tokens and cost, and the
    average latency times the number of calls is the summary's total
    duration. *)
Theorem observability_agrees_with_caller_summary (st : Store)
    (name : string) :
  exists o,
    agent_observability st name = Some o
    /\ AgentObservability.agent_name o = name
    /\ AgentObservability.call_count o
       = CostSummary.total_calls (caller_summary st name)
    /\ AgentObservability.error_count o
       = CostSummary.failed_calls (caller_summary st name)
    /\ AgentObservability.total_tokens o
       = CostSummary.total_tokens (caller_summary st name)
    /\ AgentObservability.total_cost_usd o
       = CostSummary.total_cost_usd (caller_summary st name)
    /\ AgentObservability.avg_latency_ms o
       * inject_Z (AgentObservability.call_count o)
       == CostSummary.total_duration_ms (caller_summary st name).
Proof.
  unfold caller_summary.
  destruct (filter (fun r => CallRecord.caller r = name) (snapshot st))
    as [|r0 rs] eqn:E.
  - exists (AgentObservability.default name). split.
    { unfold agent_observability. now rewrite E. }
    repeat split.
  - eexists. split; [apply (agent_observability_nonempty _ _ _ _ E) |].
    cbn [AgentObservability.agent_name AgentObservability.call_count
         AgentObservability.error_count AgentObservability.total_tokens
         AgentObservability.total_cost_usd AgentObservability.avg_latency_ms].
    destruct (aggregate_fields (r0 :: rs))
      as (H1 & H2 & H3 & _ & _ & H6 & H7 & H8).
    destruct (aggregate_counts (r0 :: rs)) as (_ & _ & _ & Hsum).
    rewrite H1, H3, H6, H7, H8.
    split; [reflexivity |]. split; [reflexivity |].
    split; [rewrite sumZ_ones; lia |].
    split; [reflexivity |]. split; [reflexivity |].
    assert (Hlen : len (sorted (map CallRecord.duration_ms (r0 :: rs)))
                   = len (r0 :: rs)).
    { unfold len. now rewrite sorted_length, length_map. }
    rewrite Hlen, (sum_perm _ _ (sorted_perm _)).
    assert (Hn : ~ inject_Z (len (r0 :: rs)) == 0).
    { assert (Hpos : (0 < len (r0 :: rs))%Z) by (apply len_pos; discriminate).
      intros H0. change 0 with (inject_Z 0) in H0.
      apply (proj1 (inject_Z_injective _ _)) in H0. lia. }
    field. exact Hn.
Qed.

(** X7: in the snapshot of any agent the error count lies between 0 and the
    call count and the error rate lies between 0 and 1; and when the agent
    has records, its p50 and p95 latencies are each the duration of one of
    its records. *)
Theorem observability_bounds (st : Store) (name : string) :
  exists o,
    agent_observability st name = Some o
    /\ (0 <= AgentObservability.error_count o
        <= AgentObservability.call_count o)%Z
    /\ 0 <= AgentObservability.error_rate o
    /\ AgentObservability.error_rate o <= 1
    /\ ((exists r, r ∈ snapshot st /\ CallRecord.caller r = name) ->
        (exists r50, r50 ∈ snapshot st /\ CallRecord.caller r50 = name
           /\ CallRecord.duration_ms r50
              = AgentObservability.p50_latency_ms o)
        /\ (exists r95, r95 ∈ snapshot st /\ CallRecord.caller r95 = name
              /\ CallRecord.duration_ms r95
                 = AgentObservability.p95_latency_ms o)).
Proof.
  destruct (filter (fun r => CallRecord.caller r = name) (snapshot st))
    as [|r0 rs] eqn:E.
  - exists (AgentObservability.default name). split.
    { unfold agent_observability. now rewrite E. }
    simpl. repeat split; try lia; try discriminate;
      destruct H as (r & Hr & Hc); exfalso;
      assert (Hin : r ∈ filter (fun r => CallRecord.caller r = name)
                          (snapshot st))
        by (apply list_elem_of_filter; now split);
      rewrite E in Hin; now apply elem_of_nil in Hin.
  - eexists. split; [apply (agent_observability_nonempty _ _ _ _ E) |].
    cbn [AgentObservability.call_count AgentObservability.error_count
         AgentObservability.error_rate AgentObservability.p50_latency_ms
         AgentObservability.p95_latency_ms].
    rewrite sumZ_ones.
    pose proof (len_filter_le (fun r => CallRecord.success r = true)
                  (r0 :: rs)) as Hf.
    set (n := len (r0 :: rs)) in *.
    set (e := (n - len (filter (fun r => CallRecord.success r = true)
                         (r0 :: rs)))%Z) in *.
    assert (Hn : (0 < n)%Z) by (apply len_pos; discriminate).
    assert (He : (0 <= e <= n)%Z) by (unfold e; lia).
    assert (HnQ : 0 < inject_Z n).
    { change 0 with (inject_Z 0). now rewrite <- Zlt_Qlt. }
    assert (HeQ : 0 <= inject_Z e /\ inject_Z e <= inject_Z n).
    { change 0 with (inject_Z 0). rewrite <- !Zle_Qle. lia. }
    split; [exact He |].
    split; [apply Qle_shift_div_l; [exact HnQ | lra] |].
    split; [apply Qle_shift_div_r; [exact HnQ | lra] |].
    intros _.
    set (durations := sorted (map CallRecord.duration_ms (r0 :: rs))).
    assert (Hne : durations <> []).
    { intros H0. pose proof (sorted_length
                               (map CallRecord.duration_ms (r0 :: rs))) as Hl.
      fold durations in Hl. rewrite H0 in Hl. discriminate. }
    assert (Hpick : forall pct,
              exists r, r ∈ snapshot st /\ CallRecord.caller r = name
                /\ CallRecord.duration_ms r = _percentile durations pct).
    { intros pct.
      pose proof (percentile_lookup durations pct Hne) as Hget.
      apply list_elem_of_lookup_2 in Hget.
      remember (_percentile durations pct) as v eqn:Hv. clear Hv.
      unfold durations in Hget. rewrite (sorted_perm _) in Hget.
      apply list_elem_of_fmap in Hget as (r & Heq & Hr).
      rewrite <- E in Hr. apply list_elem_of_filter in Hr as [Hc Hs].
      exists r. now repeat split. }
    split; apply Hpick.
Qed.

Lemma observability_bounds_witness :
  exists o,
    agent_observability five_calls "agent" = Some o
    /\ exists r50, r50 ∈ snapshot five_calls
         /\ CallRecord.duration_ms r50 = AgentObservability.p50_latency_ms o.
Proof.
  destruct (observability_bounds five_calls "agent")
    as (o & Ho & _ & _ & _ & Hpick).
  exists o. split; [exact Ho |].
  destruct Hpick as [(r50 & Hr & _ & Hd) _].
  - exists (sample_args_record "gpt-4o" "agent" 10 10 30 1).
    split; [| reflexivity].
    unfold sample_args_record. vm_compute. apply list_elem_of_here.
  - now exists r50.
Defined.

(** ** Percentiles in general *)

(** X8: on a non-empty ascending list [_percentile] grows with the
    percentile asked for; its result is an item of the list; a percentile of
    0 or less gives the first item and one of 100 or more gives the last. *)
Theorem percentile_monotone (values : list Q) (p q : Z) :
  StronglySorted Qle values ->
  values <> [] ->
  (p <= q)%Z ->
  _percentile values p <= _percentile values q
  /\ _percentile values p ∈ values
  /\ ((p <= 0)%Z -> head values = Some (_percentile values p))
  /\ ((100 <= q)%Z -> last values = Some (_percentile values q)).
Proof.
  intros Hasc Hne Hpq.
  pose proof (len_pos _ Hne) as Hn.
  pose proof (percentile_lookup values p Hne) as Hp.
  pose proof (percentile_lookup values q Hne) as Hq.
  pose proof (percentile_index_mono (len values) p q Hn Hpq) as Hm.
  pose proof (percentile_index_range (len values) p Hn) as Hr.
  split; [| split; [| split]].
  - eapply ascending_lookup; [exact Hasc | exact Hp | exact Hq | lia].
  - eapply list_elem_of_lookup_2. exact Hp.
  - intros Hp0. rewrite <- Hp.
    assert (Hk : percentile_index (len values) p = 0%Z).
    { unfold percentile_index.
      assert ((Z.quot (len values * p) 100 <= 0)%Z).
      { apply Z.quot_le_upper_bound; nia. }
      lia. }
    rewrite Hk. now destruct values.
  - intros Hq100. rewrite <- Hq, last_lookup.
    assert (Hk : percentile_index (len values) q = (len values - 1)%Z).
    { unfold percentile_index.
      assert ((len values <= Z.quot (len values * q) 100)%Z).
      { apply Z.quot_le_lower_bound; nia. }
      lia. }
    rewrite Hk. f_equal. unfold len. lia.
Qed.

Lemma percentile_monotone_witness :
  _percentile [5; 7; 9] 0 <= _percentile [5; 7; 9] 100
  /\ head [5; 7; 9] = Some (_percentile [5; 7; 9] 0)
  /\ last [5; 7; 9] = Some (_percentile [5; 7; 9] 100).
Proof.
  destruct (percentile_monotone [5; 7; 9] 0 100) as (Hle & _ & Hh & Hl).
  - repeat constructor; discriminate.
  - discriminate.
  - lia.
  - split; [exact Hle | split; [apply Hh; lia | apply Hl; lia]].
Defined.

(** ** The session summary by provider and by conversation *)

Lemma aggregate_by_key (key : CallRecord.t -> string)
    (l : list CallRecord.t) (ks : list string) :
  NoDup ks ->
  (forall r, r ∈ l -> key r ∈ ks) ->
  CostSummary.equiv (_aggregate l)
    (sum_summaries
       (map (fun k => _aggregate (filter (fun x => key x = k) l)) ks)).
Proof.
  intros Hnd. induction l as [|r l IH] using rev_ind; intros Hcover.
  - clear Hcover Hnd. induction ks as [|k ks IHks]; [apply equiv_refl |].
    cbn [map sum_summaries fold_right].
    eapply equiv_trans; [exact IHks | apply equiv_sym, add_empty_l].
  - rewrite aggregate_snoc.
    assert (Hsnoc : forall k,
              _aggregate (filter (fun x => key x = k) (l ++ [r]))
              = if decide (key r = k)
                then aggregate_step
                       (_aggregate (filter (fun x => key x = k) l)) r
                else _aggregate (filter (fun x => key x = k) l)).
    { intros k. rewrite filter_app.
      destruct (decide (key r = k)) as [Hk | Hk].
      - rewrite (filter_cons_True _ r []) by exact Hk. apply aggregate_snoc.
      - rewrite (filter_cons_False _ r []) by exact Hk.
        now rewrite app_nil_r. }
    rewrite (map_ext _ _ Hsnoc).
    apply equiv_sym.
    eapply equiv_trans; [apply (sum_summaries_bump _ r _ ks Hnd) |].
    rewrite decide_True.
    + apply step_equiv, equiv_sym, IH.
      intros x Hx. apply Hcover, elem_of_app. now left.
    + apply Hcover, elem_of_app. right. left.
Qed.

(** X9: the session summary is also the field-wise sum of the provider
    summaries, and of the conversation summaries, over any duplicate-free
    list of providers (of conversation ids) that includes those present in
    the ledger; names that are not present add nothing. *)
Theorem session_decomposes_by_provider_and_conversation (st : Store)
    (providers conversations : list string) :
  NoDup providers ->
  NoDup conversations ->
  (forall r, r ∈ snapshot st -> CallRecord.provider r ∈ providers) ->
  (forall r, r ∈ snapshot st -> CallRecord.conversation_id r ∈ conversations) ->
  CostSummary.equiv (session_summary st)
    (sum_summaries (map (provider_summary st) providers))
  /\ CostSummary.equiv (session_summary st)
       (sum_summaries (map (conversation_summary st) conversations)).
Proof.
  intros Hp Hc Hpc Hcc. split.
  - exact (aggregate_by_key CallRecord.provider _ _ Hp Hpc).
  - exact (aggregate_by_key CallRecord.conversation_id _ _ Hc Hcc).
Qed.

Lemma session_decomposes_by_provider_and_conversation_witness :
  CostSummary.equiv (session_summary sample_store)
    (sum_summaries
       (map (provider_summary sample_store) ["openai"; "together"]%string)).
Proof.
  refine (proj1 (session_decomposes_by_provider_and_conversation sample_store
                   ["openai"; "together"]%string ["conv-123"]%string
                   _ _ _ _)).
  - apply (bool_decide_unpack _). vm_compute. exact I.
  - apply (bool_decide_unpack _). vm_compute. exact I.
  - intros r Hr. vm_compute in Hr.
    repeat (apply elem_of_cons in Hr as [-> | Hr]);
      [ .. | apply elem_of_nil in Hr; contradiction ];
      simpl; set_solver.
  - intros r Hr. vm_compute in Hr.
    repeat (apply elem_of_cons in Hr as [-> | Hr]);
      [ .. | apply elem_of_nil in Hr; contradiction ];
      simpl; set_solver.
Defined.

(** ** More about the pricing resolver *)

(** The rates applied depend on the model identifier only. *)
Lemma estimate_over_rates items model :
  nonneg_rates items ->
  exists pr cr,
    0 <= pr /\ 0 <= cr
    /\ forall p c, estimate_over items model p c = cost_at pr cr p c.
Proof.
  induction 1 as [|[q [qr qc]] items [Hr Hc] _ IH].
  - exists 0.003, 0.015. repeat split; discriminate.
  - cbn [estimate_over]. destruct (Str.contains q (Str.lower model)).
    + exists qr, qc. now repeat split.
    + exact IH.
Qed.

(** X10: the estimate never decreases when token counts grow, and the
    estimate of two sets of token counts taken together is the sum of their
    estimates. *)
Theorem estimate_cost_monotone_additive (model : string)
    (p1 c1 p2 c2 : Z) :
  ((p1 <= p2)%Z -> (c1 <= c2)%Z ->
   _estimate_cost model p1 c1 <= _estimate_cost model p2 c2)
  /\ _estimate_cost model (p1 + p2) (c1 + c2)
     == _estimate_cost model p1 c1 + _estimate_cost model p2 c2.
Proof.
  destruct (estimate_over_rates _DEFAULT_PRICING model default_pricing_nonneg)
    as (pr & cr & Hpr & Hcr & Hrates).
  unfold _estimate_cost. rewrite !Hrates. unfold cost_at, Qdiv.
  change (/ 1000) with (1 # 1000). split.
  - intros Hp Hc. rewrite Zle_Qle in Hp, Hc.
    assert (inject_Z p1 * (1 # 1000) * pr <= inject_Z p2 * (1 # 1000) * pr).
    { apply Qmult_le_compat_r; [lra | exact Hpr]. }
    assert (inject_Z c1 * (1 # 1000) * cr <= inject_Z c2 * (1 # 1000) * cr).
    { apply Qmult_le_compat_r; [lra | exact Hcr]. }
    lra.
  - rewrite !inject_Z_plus. ring.
Qed.

Lemma estimate_cost_monotone_additive_witness :
  _estimate_cost "gpt-4o" 10 20 <= _estimate_cost "gpt-4o" 15 20.
Proof.
  apply (proj1 (estimate_cost_monotone_additive "gpt-4o" 10 20 15 20)); lia.
Defined.

(** X11: no entry of the pricing table is hidden by an earlier one: the
    model identifier that is an entry's prefix itself is priced at that
    entry's rates. *)
Theorem pricing_entries_not_shadowed (prefix : string) (pr cr : Q)
    (p c : Z) :
  (prefix, (pr, cr)) ∈ _DEFAULT_PRICING ->
  _estimate_cost prefix p c = cost_at pr cr p c.
Proof.
  intros He. unfold _DEFAULT_PRICING in He.
  repeat (apply elem_of_cons in He as [He | He]);
    [ .. | apply elem_of_nil in He; contradiction ];
    injection He as -> -> ->; reflexivity.
Qed.

Lemma pricing_entries_not_shadowed_witness :
  _estimate_cost "gpt-4o-mini" 1000 1000 = cost_at 0.00015 0.0006 1000 1000.
Proof.
  apply pricing_entries_not_shadowed.
  unfold _DEFAULT_PRICING. do 5 apply list_elem_of_further.
  apply list_elem_of_here.
Defined.

(** ** The observability report *)

Lemma string_compare_lt_trans (a b c : string) :
  String.compare a b = Lt -> String.compare b c = Lt ->
  String.compare a c = Lt.
Proof.
  revert b c. induction a as [|x a IH]; intros [|y b] [|z c]; simpl;
    try discriminate; try reflexivity.
  unfold Ascii.compare.
  destruct (N.compare_spec (N_of_ascii x) (N_of_ascii y)) as [Hxy | Hxy | Hxy];
    destruct (N.compare_spec (N_of_ascii y) (N_of_ascii z)) as [Hyz | Hyz | Hyz];
    try discriminate; intros H1 H2.
  - rewrite Hxy, Hyz, N.compare_refl. now apply (IH b c).
  - rewrite Hxy. now apply N.compare_lt_iff in Hyz as ->.
  - rewrite <- Hyz. now apply N.compare_lt_iff in Hxy as ->.
  - assert (Hxz : (N_of_ascii x < N_of_ascii z)%N) by lia.
    now apply N.compare_lt_iff in Hxz as ->.
Qed.

Lemma string_leb_cases (a b : string) :
  String.leb a b = true <-> a = b \/ String.ltb a b = true.
Proof.
  unfold String.leb, String.ltb.
  destruct (String.compare a b) eqn:E.
  - apply String.compare_eq_iff in E. tauto.
  - tauto.
  - split; [discriminate |]. intros [-> | H]; [| discriminate].
    pose proof (String.compare_antisym b b) as Ha.
    rewrite E in Ha. discriminate.
Qed.

Lemma string_ltb_trans (a b c : string) :
  String.ltb a b = true -> String.ltb b c = true -> String.ltb a c = true.
Proof.
  unfold String.ltb.
  destruct (String.compare a b) eqn:E1; try discriminate.
  destruct (String.compare b c) eqn:E2; try discriminate.
  now rewrite (string_compare_lt_trans a b c E1 E2).
Qed.

Lemma string_leb_trans (a b c : string) :
  String.leb a b = true -> String.leb b c = true -> String.leb a c = true.
Proof.
  rewrite !string_leb_cases.
  intros [-> | H1] [-> | H2]; auto.
  right. now apply string_ltb_trans with b.
Qed.

Lemma insert_name_perm (x : string) (l : list string) :
  insert_name x l ≡ₚ x :: l.
Proof.
  induction l as [|y l IH]; simpl; [reflexivity |].
  destruct (String.leb x y); [reflexivity |].
  rewrite IH. apply perm_swap.
Qed.

Lemma sorted_names_perm (l : list string) : sorted_names l ≡ₚ l.
Proof.
  induction l as [|x l IH]; simpl; [reflexivity |].
  now rewrite insert_name_perm, IH.
Qed.

Lemma sorted_names_ascending (l : list string) :
  StronglySorted (fun a b => String.leb a b = true) (sorted_names l).
Proof.
  induction l as [|x l IH]; simpl; [constructor |].
  induction IH as [|y k Hs IHk Hy]; simpl.
  - repeat constructor.
  - destruct (String.leb x y) eqn:E.
    + constructor; [now constructor |]. constructor; [exact E |].
      eapply Forall_impl; [exact Hy |]. simpl. intros z Hz.
      now apply string_leb_trans with y.
    + constructor; [exact IHk |].
      rewrite (insert_name_perm x k). constructor; [| exact Hy].
      destruct (String.leb_total x y) as [H | H]; congruence.
Qed.

(** A duplicate-free ascending list is strictly ascending. *)
Lemma ascending_nodup_strict (l : list string) :
  StronglySorted (fun a b => String.leb a b = true) l ->
  NoDup l ->
  StronglySorted (fun a b => String.ltb a b = true) l.
Proof.
  induction 1 as [|x l Hs IH Hx]; intros Hnd; [constructor |].
  apply NoDup_cons in Hnd as [Hnotin Hnd].
  constructor; [now apply IH |].
  rewrite Forall_forall in *. intros y Hy.
  destruct (proj1 (string_leb_cases x y) (Hx y Hy)) as [-> | H];
    [contradiction | exact H].
Qed.

(** X12: [observability_report] returns a result for every ledger.  Its
    keys are the callers present in the ledger, each once, in strictly
    ascending order; the value stored under a name is
    [agent_observability] of that name, with at least one call. *)
Theorem observability_report_keys (st : Store) :
  exists report,
    observability_report st = Some report
    /\ StronglySorted (fun a b => String.ltb a b = true) (map fst report)
    /\ (forall name,
          name ∈ map fst report
          <-> exists r, r ∈ snapshot st /\ CallRecord.caller r = name)
    /\ (forall name o,
          (name, o) ∈ report ->
          agent_observability st name = Some o
          /\ AgentObservability.agent_name o = name
          /\ (1 <= AgentObservability.call_count o)%Z).
Proof.
  unfold observability_report.
  set (names := sorted_names (elements (agent_names st))).
  set (f := fun name => o ← agent_observability st name; Some (name, o)).
  assert (Hsome : is_Some (mapM f names)).
  { apply mapM_is_Some, Forall_forall. intros name _. unfold f. simpl.
    destruct (agent_observability_returns st name) as [o ->]. now eexists. }
  destruct Hsome as [report Hreport]. exists report.
  split; [exact Hreport |].
  apply mapM_Some in Hreport.
  assert (Hitems : forall name o, (name, o) ∈ report ->
                     name ∈ names /\ agent_observability st name = Some o).
  { clear -Hreport. induction Hreport as [|n y ns ys Hy _ IH];
      intros name o Hin; [now apply elem_of_nil in Hin |].
    apply elem_of_cons in Hin as [<- | Hin].
    - unfold f in Hy. destruct (agent_observability st n) as [o'|] eqn:E;
        [| discriminate]. simpl in Hy. injection Hy as <- <-.
      split; [left | exact E].
    - destruct (IH name o Hin). split; [now right | assumption]. }
  assert (Hkeys : map fst report = names).
  { clear -Hreport. induction Hreport as [|n y ns ys Hy _ IH];
      [reflexivity |].
    simpl. rewrite IH. f_equal. unfold f in Hy.
    destruct (agent_observability st n); [| discriminate].
    simpl in Hy. now injection Hy as <-. }
  assert (Hnames : forall name,
            name ∈ names
            <-> exists r, r ∈ snapshot st /\ CallRecord.caller r = name).
  { intros name. unfold names. rewrite (sorted_names_perm _).
    rewrite elem_of_elements. unfold agent_names.
    rewrite elem_of_list_to_set, list_elem_of_fmap. split.
    - intros (r & -> & Hr). now exists r.
    - intros (r & Hr & <-). now exists r. }
  split; [| split].
  - rewrite Hkeys. apply ascending_nodup_strict.
    + apply sorted_names_ascending.
    + unfold names. rewrite (sorted_names_perm _). apply NoDup_elements.
  - intros name. now rewrite Hkeys.
  - intros name o Hin. destruct (Hitems name o Hin) as [Hname Ho].
    split; [exact Ho |].
    apply Hnames in Hname as (r & Hr & Hc).
    destruct (filter (fun x => CallRecord.caller x = name) (snapshot st))
      as [|r0 rs] eqn:E.
    + exfalso.
      assert (Hin' : r ∈ filter (fun x => CallRecord.caller x = name)
                           (snapshot st))
        by (apply list_elem_of_filter; now split).
      rewrite E in Hin'. now apply elem_of_nil in Hin'.
    + rewrite (agent_observability_nonempty _ _ _ _ E) in Ho.
      injection Ho as <-. simpl. split; [reflexivity |].
      unfold len. simpl length. lia.
Qed.

Lemma observability_report_keys_witness :
  exists report,
    observability_report sample_store = Some report
    /\ "judge"%string ∈ map fst report.
Proof.
  destruct (observability_report_keys sample_store)
    as (report & Hr & _ & Hkeys & _).
  exists report. split; [exact Hr |].
  apply Hkeys.
  exists (new_record (sample_args "GPT-4o-Mini" "judge" 1000 0 30 true) 2).
  split; [| reflexivity].
  vm_compute. apply list_elem_of_further, list_elem_of_here.
Defined.

(** ** Threads: each thread's records keep the order of its calls *)

Section ThreadOrder.
Import Threads.
Local Open Scope nat_scope.

Lemma inflight_args_grow (h : list CallRecord.t) (r : CallRecord.t)
    (th : Thread) :
  length (inflight_args h th) = length (inflight th) ->
  inflight_args (h ++ [r]) th = inflight_args h th.
Proof.
  unfold inflight_args, inflight.
  destruct (pc th) as [|a|a|a]; try reflexivity; csimpl;
    (destruct (h !! a) as [x|] eqn:E; [| discriminate]); intros _;
    now rewrite (lookup_app_l_Some _ _ _ _ E).
Qed.

Lemma deref_all_length (h : list CallRecord.t) (addrs : list nat) :
  length (deref_all h addrs) <= length addrs.
Proof.
  unfold deref_all. induction addrs as [|a addrs IH]; [reflexivity |].
  csimpl. destruct (h !! a); simpl; lia.
Qed.

Lemma deref_all_grow (h : list CallRecord.t) (r : CallRecord.t)
    (addrs : list nat) :
  length (deref_all h addrs) = length addrs ->
  deref_all (h ++ [r]) addrs = deref_all h addrs.
Proof.
  unfold deref_all. induction addrs as [|a addrs IH]; [reflexivity |].
  csimpl. destruct (h !! a) as [x|] eqn:E; csimpl.
  - intros Hl. rewrite (lookup_app_l_Some _ _ _ _ E). csimpl.
    rewrite IH; [reflexivity | lia].
  - intros Hl. pose proof (deref_all_length h addrs) as Hle.
    unfold deref_all in Hle. lia.
Qed.

Lemma deref_all_snoc (h : list CallRecord.t) (addrs : list nat) (a : nat)
    (r : CallRecord.t) :
  h !! a = Some r -> deref_all h (addrs ++ [a]) = deref_all h addrs ++ [r].
Proof.
  intros Ha. unfold deref_all. rewrite omap_app. csimpl. now rewrite Ha.
Qed.

Lemma thread_owns_grow h r recs th po :
  thread_owns h recs th po -> thread_owns (h ++ [r]) recs th po.
Proof.
  intros (Hprog & Hown & Hfly & Hsub). unfold thread_owns.
  now rewrite (deref_all_grow h r _ Hown), (inflight_args_grow h r th Hfly).
Qed.

Lemma thread_owns_snoc h a recs th po :
  thread_owns h recs th po -> thread_owns h (recs ++ [a]) th po.
Proof.
  intros (Hprog & Hown & Hfly & Hsub).
  repeat split; try assumption. now apply sublist_inserts_r.
Qed.

Lemma spawn_owner_inv (programs : list (list RecordArgs.t)) :
  owner_inv programs (spawn programs).
Proof.
  exists (map (fun p => (p, [])) programs). simpl. split; [| split].
  - rewrite map_map. simpl. apply map_id.
  - induction programs as [|p ps IH]; constructor; [| exact IH].
    repeat split. apply sublist_nil_l.
  - induction programs as [|p ps IH]; [reflexivity | exact IH].
Qed.

Lemma step_preserves_owner (programs : list (list RecordArgs.t))
    (c c' : Config) :
  step c c' -> owner_inv programs c -> owner_inv programs c'.
Proof.
  intros (t & now & Hs) (tagged & Hfst & Hall & Hcover).
  apply sched_step_cases in Hs as (l1 & l2 & pend & p & Hl & Hs).
  unfold owner_inv. destruct c as [[h recs] lk ths]. simpl in *.
  subst ths.
  apply Forall2_app_inv_l in Hall as (k1 & k' & H1 & H2 & ->).
  apply Forall2_cons_inv_l in H2 as ([prog own] & k2 & Hth & H2 & ->).
  destruct Hth as (Hprog & Hown & Hfly & Hsub).
  unfold inflight_args in Hprog, Hfly. simpl in Hprog, Hfly.
  destruct p as [|addr|addr|addr].
  - destruct Hs as (a & rest & -> & ->). simpl.
    exists (k1 ++ (prog, own) :: k2). split; [exact Hfst |].
    split; [| exact Hcover].
    apply Forall2_app.
    { eapply Forall2_impl; [exact H1 |]. intros.
      now apply thread_owns_grow. }
    constructor.
    + unfold thread_owns, inflight_args. csimpl.
      rewrite (deref_all_grow h _ own Hown).
      rewrite lookup_app_r by lia. rewrite Nat.sub_diag. csimpl.
      rewrite args_of_new_record. now repeat split.
    + eapply Forall2_impl; [exact H2 |]. intros.
      now apply thread_owns_grow.
  - destruct Hs as (_ & ->). simpl.
    exists (k1 ++ (prog, own) :: k2). split; [exact Hfst |].
    split; [| exact Hcover].
    apply Forall2_app; [exact H1 |]. constructor; [| exact H2].
    now repeat split.
  - subst c'. simpl in *.
    destruct (h !! addr) as [r|] eqn:Ha; [| discriminate].
    csimpl in Hprog.
    exists (k1 ++ (prog, own ++ [addr]) :: k2). split; [| split].
    + rewrite <- Hfst, !map_app. reflexivity.
    + apply Forall2_app.
      { eapply Forall2_impl; [exact H1 |]. intros.
        now apply thread_owns_snoc. }
      constructor.
      * unfold thread_owns, inflight_args. csimpl.
        rewrite (deref_all_snoc h own addr r Ha), map_app, Hprog.
        cbn [map]. rewrite <- app_assoc, !length_app, Hown.
        repeat split. apply sublist_app; [exact Hsub | reflexivity].
      * eapply Forall2_impl; [exact H2 |]. intros.
        now apply thread_owns_snoc.
    + rewrite <- Hcover, !map_app, !concat_app. simpl.
      solve_Permutation.
  - subst c'. simpl.
    exists (k1 ++ (prog, own) :: k2). split; [exact Hfst |].
    split; [| exact Hcover].
    apply Forall2_app; [exact H1 |]. constructor; [| exact H2].
    now repeat split.
Qed.

Lemma nsteps_owner_inv (programs : list (list RecordArgs.t)) (n : nat)
    (c c' : Config) :
  nsteps step n c c' -> owner_inv programs c -> owner_inv programs c'.
Proof.
  induction 1 as [c | n c c1 c2 Hstep _ IH]; intros Hinv; [exact Hinv |].
  apply IH. now apply (step_preserves_owner programs c).
Qed.

End ThreadOrder.

(** X13: under any interleaving of threads calling [record], the records
    of one thread enter the ledger in the order of its calls.  At every
    point the entries of the ledger, none of which occurs twice, are shared
    out among the threads, one share per thread and each entry in one share;
    the entries of a thread
    occur in the ledger in the order of its program; and the program is the
    calls of these entries, then the call the thread has in flight, then the
    calls it has not started.  When all threads are done, each program is
    the calls of its thread's entries. *)
Theorem per_thread_order (programs : list (list RecordArgs.t)) (n : nat)
    (c : Threads.Config) :
  nsteps Threads.step n (Threads.spawn programs) c ->
  NoDup (_records (Threads.store c))
  /\ exists owned : list (list nat),
       length owned = length programs
       /\ concat owned ≡ₚ _records (Threads.store c)
       /\ forall i prog,
            programs !! i = Some prog ->
            exists th own,
              Threads.threads c !! i = Some th
              /\ owned !! i = Some own
              /\ own `sublist_of` _records (Threads.store c)
              /\ length (deref_all (heap (Threads.store c)) own) = length own
              /\ prog
                 = map args_of (deref_all (heap (Threads.store c)) own)
                   ++ inflight_args (heap (Threads.store c)) th
                   ++ Threads.pending th
              /\ (Threads.finished c = true ->
                  prog
                  = map args_of (deref_all (heap (Threads.store c)) own)).
Proof.
  intros Hrun. split.
  - destruct (nsteps_inv _ _ _ _ Hrun (spawn_inv programs))
      as [(_ & Hobj & _) _].
    unfold objects_accounted in Hobj.
    assert (Hall : NoDup (_records (Threads.store c)
                          ++ concat (map Threads.inflight (Threads.threads c))))
      by (rewrite Hobj; apply NoDup_seq).
    now apply NoDup_app in Hall as [? _].
  - destruct (nsteps_owner_inv programs n _ _ Hrun (spawn_owner_inv programs))
      as (tagged & Hfst & Hall & Hcover).
    exists (map snd tagged).
    split; [rewrite <- Hfst; now rewrite !length_map |].
    split; [exact Hcover |].
    intros i prog Hi. rewrite <- Hfst in Hi.
    rewrite list_lookup_fmap in Hi.
    destruct (tagged !! i) as [[prog' own]|] eqn:Ht; [| discriminate].
    simpl in Hi. injection Hi as ->.
    destruct (Forall2_lookup_r _ _ _ _ _ Hall Ht)
      as (th & Hth & Hprog & Hown & Hfly & Hsub).
    simpl in *. exists th, own.
    split; [exact Hth |].
    split; [rewrite list_lookup_fmap, Ht; reflexivity |].
    split; [exact Hsub |]. split; [exact Hown |]. split; [exact Hprog |].
    intros Hfin. unfold Threads.finished in Hfin.
    rewrite forallb_forall in Hfin.
    assert (Hdone : Threads.thread_done th = true).
    { apply Hfin. apply list_elem_of_In. eapply list_elem_of_lookup_2.
      exact Hth. }
    rewrite Hprog at 1. unfold Threads.thread_done in Hdone.
    unfold inflight_args, Threads.inflight.
    destruct (Threads.pc th), (Threads.pending th); try discriminate.
    csimpl. now rewrite app_nil_r.
Qed.

Lemma per_thread_order_witness :
  exists c,
    Threads.run two_schedule (Threads.spawn two_programs) = Some c
    /\ exists own,
         own `sublist_of` _records (Threads.store c)
         /\ [sample_args "gpt-4o" "judge" 10 10 30 true]
            = map args_of (deref_all (heap (Threads.store c)) own).
Proof.
  eexists. split; [vm_compute; reflexivity |].
  match goal with
  | |- exists own, own `sublist_of` _records (Threads.store ?c) /\ _ =>
      assert (Hn : nsteps Threads.step 8 (Threads.spawn two_programs) c)
        by (apply (run_nsteps two_schedule); reflexivity);
      destruct (per_thread_order two_programs 8 c Hn)
        as (_ & owned & _ & _ & Hper);
      destruct (Hper 0%nat [sample_args "gpt-4o" "judge" 10 10 30 true]
                  eq_refl)
        as (th & own & _ & _ & Hsub & _ & _ & Hfin)
  end.
  exists own. split; [exact Hsub | exact (Hfin eq_refl)].
Defined.

(** ** Threads: the ledger at any moment *)

(** X14: at every point of every interleaving, not only at the end, the
    ledger is consistent: it lists no object twice, every address in it
    denotes a built object, its records are records of calls of the
    programs, none counted twice, and a session summary taken then reports
    as many calls as the ledger has entries, at most N*M. *)
Theorem ledger_consistent_at_every_point (N M : nat)
    (programs : list (list RecordArgs.t)) (n : nat) (c : Threads.Config) :
  length programs = N ->
  Forall (fun p => length p = M) programs ->
  nsteps Threads.step n (Threads.spawn programs) c ->
  NoDup (_records (Threads.store c))
  /\ wf (Threads.store c)
  /\ map args_of (snapshot (Threads.store c)) ⊆+ concat programs
  /\ CostSummary.total_calls (session_summary (Threads.store c))
     = len (_records (Threads.store c))
  /\ (CostSummary.total_calls (session_summary (Threads.store c))
      <= Z.of_nat (N * M))%Z.
Proof.
  intros HN HM Hrun.
  destruct (nsteps_inv _ _ _ _ Hrun (spawn_inv programs))
    as [(Hcalls & Hobj & _) _].
  unfold calls_conserved, objects_accounted in *.
  set (st := Threads.store c) in *.
  set (flying := concat (map Threads.inflight (Threads.threads c))) in *.
  assert (Hnd : NoDup (_records st)).
  { assert (Hall : NoDup (_records st ++ flying))
      by (rewrite Hobj; apply NoDup_seq).
    now apply NoDup_app in Hall as [? _]. }
  assert (Hwf : wf st).
  { unfold wf. apply Forall_forall. intros a Ha.
    assert (Hin : a ∈ seq 0 (length (heap st))).
    { rewrite <- Hobj. apply elem_of_app. now left. }
    apply elem_of_seq in Hin. lia. }
  assert (Hheap : heap st
                  ≡ₚ snapshot st ++ omap (fun a => heap st !! a) flying).
  { rewrite <- (omap_lookup_all (heap st)) at 1.
    rewrite <- Hobj, omap_app. reflexivity. }
  assert (Hsub : map args_of (snapshot st) ⊆+ concat programs).
  { rewrite <- Hcalls, Hheap, map_app, <- app_assoc.
    apply submseteq_inserts_r. reflexivity. }
  assert (Htotal : CostSummary.total_calls (session_summary st)
                   = len (_records st)).
  { unfold session_summary. rewrite aggregate_total_calls. unfold len.
    now rewrite snapshot_length. }
  repeat split; try assumption.
  rewrite Htotal. unfold len.
  rewrite <- (snapshot_length st Hwf), <- (length_map args_of).
  apply submseteq_length in Hsub.
  assert (Hlen : length (concat programs) = (N * M)%nat).
  { subst N. clear -HM. induction HM as [|p ps Hp _ IH]; [reflexivity |].
    simpl. rewrite length_app, IH, Hp. lia. }
  lia.
Qed.

Lemma ledger_consistent_at_every_point_witness :
  match Threads.run [(0%nat, 1); (1%nat, 2); (1%nat, 3); (1%nat, 4)]
          (Threads.spawn two_programs) with
  | Some c =>
      CostSummary.total_calls (session_summary (Threads.store c))
      = len (_records (Threads.store c))
  | None => False
  end.
Proof.
  destruct (Threads.run [(0%nat, 1); (1%nat, 2); (1%nat, 3); (1%nat, 4)]
              (Threads.spawn two_programs)) as [c|] eqn:E;
    [| discriminate].
  refine (proj1 (proj2 (proj2 (proj2
            (ledger_consistent_at_every_point 2 1 two_programs 4 c
               _ _ _))))).
  - reflexivity.
  - repeat constructor.
  - apply (run_nsteps _ _ _ E).
Defined.
